(** * Vision-mask construction of the Llama multimodal sample encoder

    Shallow embedding of [Llama3SampleEncoder.create_vision_mask_tensor]
    (nemo/collections/vlm/llama/data/sample_encoder.py, lines 105-142) and
    the properties of the ranges it returns.

    Token ids and positions are integers, modelled as [Z].  The tokens are
    the elements of a [torch.long] tensor, so they lie in the signed 64-bit
    range ([long_tensor]); the vision token id is a Python [int] of any size,
    which torch converts to a scalar when it is compared with the tensor.
    Operations that can raise in Python return a [result]. *)

From Stdlib Require Import ZArith Lia.
From stdpp Require Import base tactics option sorting numbers sets strings list.

Local Open Scope Z_scope.

(** ** The Python / torch operations the function uses *)

Module Py.

Inductive exn : Type :=
  IndexError | TypeError | RuntimeError | OverflowError | KeyError.

Inductive result (A : Type) : Type :=
| Ok (a : A)
| Raise (e : exn).
Global Arguments Ok {A} a.
Global Arguments Raise {A} e.

Global Instance result_ret : MRet result := λ A a, Ok a.
Global Instance result_bind : MBind result := λ A B f m,
  match m with Ok a => f a | Raise e => Raise e end.
Global Instance result_fmap : FMap result := λ A B f m,
  match m with Ok a => Ok (f a) | Raise e => Raise e end.

(** A tensor of integers: its shape and its elements in row-major order. *)
Record tensor : Type := Tensor { shape : list nat; data : list Z }.

(** [t.numel()] *)
Definition numel (t : tensor) : nat := foldr Nat.mul 1%nat (shape t).

(** The values of [torch.long]: the signed 64-bit integers. *)
Definition is_int64 (z : Z) : bool := (- 2 ^ 63 <=? z) && (z <? 2 ^ 63).

(** [tokens == s] for a scalar [s] held as a signed 64-bit integer: the
    elements are compared with it one by one. *)
Definition eq_int64 (tokens : list Z) (s : Z) : list bool :=
  (λ x, x =? s) <$> tokens.

(** [tokens == v] on a 1-D [torch.long] tensor and a Python [int] [v]: a 1-D
    boolean tensor.  torch first converts [v] to a scalar.  An [int] within
    the signed 64-bit range is held as such.  From [2 ^ 64] on the conversion
    raises [OverflowError].  What torch does with any other [int] (below
    [- 2 ^ 63], or from [2 ^ 63] to [2 ^ 64 - 1], which it may hold as an
    unsigned scalar) is no code of this repository and is taken as the
    parameter [wide_scalar]: it raises, or gives the comparison applied to
    each element. *)
Definition eq_scalar (wide_scalar : Z → result (Z → bool)) (tokens : list Z) (v : Z)
  : result (list bool) :=
  if is_int64 v then Ok (eq_int64 tokens v)
  else if 2 ^ 64 <=? v then Raise OverflowError
  else compare ← wide_scalar v; Ok (compare <$> tokens).

(** Indices of the true entries of a 1-D boolean tensor, counted from [i],
    in increasing order. *)
Fixpoint nonzero_from (i : nat) (mask : list bool) : list nat :=
  match mask with
  | [] => []
  | b :: mask' =>
      if b then i :: nonzero_from (S i) mask' else nonzero_from (S i) mask'
  end.

(** [mask.nonzero(as_tuple=False)] on a 1-D tensor: shape [k, 1]. *)
Definition nonzero (mask : list bool) : tensor :=
  let idx := nonzero_from 0 mask in
  Tensor [length idx; 1%nat] (Z.of_nat <$> idx).

(** [t.squeeze()]: every dimension of size one is dropped. *)
Definition squeeze (t : tensor) : tensor :=
  Tensor (filter (λ d, d ≠ 1%nat) (shape t)) (data t).

(** [t.item()]: only a one-element tensor converts to a Python scalar. *)
Definition item (t : tensor) : result Z :=
  if (numel t =? 1)%nat then
    match data t with
    | [x] => Ok x
    | _ => Raise RuntimeError
    end
  else Raise RuntimeError.

(** [len(t)]: the first dimension; a 0-d tensor has no length. *)
Definition len (t : tensor) : result Z :=
  match shape t with
  | [] => Raise TypeError
  | d :: _ => Ok (Z.of_nat d)
  end.

(** [t[i]] for an integer [i], negative indices counting from the end. *)
Definition getitem (t : tensor) (i : Z) : result tensor :=
  match shape t with
  | [] => Raise IndexError
  | d :: rest =>
      let j := if i <? 0 then i + Z.of_nat d else i in
      if (0 <=? j) && (j <? Z.of_nat d) then
        let stride := foldr Nat.mul 1%nat rest in
        Ok (Tensor rest (take stride (drop (Z.to_nat j * stride) (data t))))
      else Raise IndexError
  end.

(** [l[i]] on a Python list. *)
Definition list_getitem {A} (l : list A) (i : Z) : result A :=
  let j := if i <? 0 then i + Z.of_nat (length l) else i in
  if j <? 0 then Raise IndexError
  else match l !! Z.to_nat j with
       | Some x => Ok x
       | None => Raise IndexError
       end.

(** [d[key]] on a dict, [entry] being what it holds under [key], if
    anything. *)
Definition dict_getitem {A} (entry : option A) : result A :=
  match entry with
  | Some x => Ok x
  | None => Raise KeyError
  end.

(** [range(n)] *)
Definition range (n : Z) : list Z := Z.of_nat <$> seq 0 (Z.to_nat n).

(** [torch.tensor(rows, dtype=torch.long)] for a list of two-element
    lists, and [torch.empty(0, 2, dtype=torch.long)]. *)
Definition tensor_of_rows (rows : list (Z * Z)) : tensor :=
  Tensor [length rows; 2%nat] (rows ≫= λ r, [r.1; r.2]).
Definition empty_0_2 : tensor := Tensor [0%nat; 2%nat] [].

(** The rows of a [k, 2] tensor, read back as pairs. *)
Fixpoint rows (d : list Z) : list (Z * Z) :=
  match d with
  | s :: e :: d' => (s, e) :: rows d'
  | _ => []
  end.

End Py.
Import Py.

(** An instance of the parameter of [eq_scalar] to run the examples with.
    The examples use vision token ids within the signed 64-bit range, or from
    [2 ^ 64] on, and never reach it. *)
Definition example_wide_scalar : Z → result (Z → bool) :=
  λ _, Raise RuntimeError.

(** ** The function *)

(** A vision mask is the two-element list [[start, end]]. *)
Abbreviation mask := (Z * Z)%type.

Section sample_encoder_py.

(** torch's comparison of a [torch.long] tensor with a Python [int] outside
    the signed 64-bit range and below [2 ^ 64]: see [eq_scalar]. *)
Variable wide_scalar : Z → result (Z → bool).

(** Line 117: the locations of the vision tokens. *)
Definition vision_token_locations (tokens : list Z) (vision_token_id : Z)
  : result tensor :=
  is_vision_token ← eq_scalar wide_scalar tokens vision_token_id;
  Ok (squeeze (nonzero is_vision_token)).

(** Lines 130-131: the loop [for i in range(len(locations) - 1)] appending
    [[locations[i].item(), locations[i + 1].item()]]. *)
Fixpoint pairwise_loop (locations : tensor) (indices : list Z) (vision_masks : list mask)
  : result (list mask) :=
  match indices with
  | [] => Ok vision_masks
  | i :: indices' =>
      a ← getitem locations i ≫= item;
      b ← getitem locations (i + 1) ≫= item;
      pairwise_loop locations indices' (vision_masks ++ [(a, b)])
  end.

(** Lines 123-133: the ranges before consecutive tokens are handled;
    [n_tokens] is [len(tokens)]. *)
Definition pairwise_masks (locations : tensor) (n_tokens : Z) : result (list mask) :=
  if (numel locations =? 1)%nat then
    p ← item locations;
    Ok [(p, n_tokens)]
  else
    n ← len locations;
    vision_masks ← pairwise_loop locations (range (n - 1)) [];
    p ← getitem locations (-1) ≫= item;
    Ok (vision_masks ++ [(p, n_tokens)]).

(** Lines 137-140: [for vision_mask in reversed(vision_masks)].  The reverse
    iterator holds an index into the list; [idx] is that index plus one.  The
    inner list found there is updated in place, which the outer list sees. *)
Fixpoint reversed_loop (idx : nat) (vision_masks : list mask) (last_mask_end : Z)
  : list mask :=
  match idx with
  | O => vision_masks
  | S i =>
      match vision_masks !! i with
      | None => vision_masks
      | Some vision_mask =>
          let vision_mask :=
            if vision_mask.1 =? vision_mask.2 - 1
            then (vision_mask.1, last_mask_end) else vision_mask in
          reversed_loop i (<[i := vision_mask]> vision_masks) vision_mask.2
      end
  end.

(** Lines 135-140: handle consecutive vision tokens. *)
Definition merge_consecutive (vision_masks : list mask) : result (list mask) :=
  last ← list_getitem vision_masks (-1);
  Ok (reversed_loop (length vision_masks) vision_masks last.2).

(** Lines 105-142. *)
Definition create_vision_mask_tensor (tokens : list Z) (vision_token_id : Z)
  : result tensor :=
  locations ← vision_token_locations tokens vision_token_id;
  if (numel locations =? 0)%nat then Ok empty_0_2
  else
    vision_masks ← pairwise_masks locations (Z.of_nat (length tokens));
    vision_masks ← merge_consecutive vision_masks;
    Ok (tensor_of_rows vision_masks).

(** The builder of the specification: the returned [k, 2] tensor read as the
    ordered sequence of ranges [(start, end)]. *)
Definition build (tokens : list Z) (vision_token_id : Z) : result (list mask) :=
  (λ t, rows (data t)) <$> create_vision_mask_tensor tokens vision_token_id.

(** ** Vocabulary of the specification *)

(** [z] fits a signed 64-bit integer. *)
Definition int64 (z : Z) : Prop := - 2 ^ 63 ≤ z < 2 ^ 63.

(** The elements of a [torch.long] tensor: every one fits a signed 64-bit
    integer. *)
Definition long_tensor (tokens : list Z) : Prop := Forall int64 tokens.

(** The occurrences of [v] in [tokens] are exactly the positions [ps],
    listed in increasing order: [p_0 < p_1 < ... < p_{k-1}]. *)
Definition occurs_at (tokens : list Z) (v : Z) (ps : list nat) : Prop :=
  StronglySorted lt ps ∧ ∀ i : nat, i ∈ ps ↔ tokens !! i = Some v.

(** No two of the positions are adjacent. *)
Definition no_adjacent (ps : list nat) : Prop := ∀ p, p ∈ ps → S p ∉ ps.

(** [p] is the position of the first occurrence of [v]. *)
Definition first_occurrence (tokens : list Z) (v : Z) (p : nat) : Prop :=
  tokens !! p = Some v ∧ ∀ i : nat, (i < p)%nat → tokens !! i ≠ Some v.

(** Some occurrence of [v] is immediately followed by another. *)
Definition adjacent_occurrences (tokens : list Z) (v : Z) : Prop :=
  ∃ i : nat, tokens !! i = Some v ∧ tokens !! S i = Some v.

(** Position [x] lies in the half-open range [[start, end)]. *)
Definition in_range (x : Z) (m : mask) : Prop := m.1 ≤ x < m.2.

(** Two ranges share no position. *)
Definition disjoint_ranges (a b : mask) : Prop := ∀ x, ¬ (in_range x a ∧ in_range x b).

(** The ranges of a mask are pairwise non-overlapping. *)
Definition non_overlapping (masks : list mask) : Prop :=
  ∀ i j a b, i ≠ j → masks !! i = Some a → masks !! j = Some b → disjoint_ranges a b.

(** The union of the ranges is exactly [[lo, hi)]. *)
Definition covers (masks : list mask) (lo hi : Z) : Prop :=
  ∀ x, (∃ m, m ∈ masks ∧ in_range x m) ↔ lo ≤ x < hi.

(** The ranges [[p_i, p_{i+1})] followed by [[p_{k-1}, N)]. *)
Definition pairwise_ranges (ps : list Z) (N : Z) : list mask := zip ps (tail ps ++ [N]).

(** The merge rule in the words of the specification: ranges are visited
    from last to first; a range with [end - start = 1] has its end
    overwritten with [last_mask_end]; [last_mask_end] then becomes the end of
    the range just visited.  [spec_merge_rev] takes and returns the ranges
    in visiting order. *)
Fixpoint spec_merge_rev (visiting : list mask) (last_mask_end : Z) : list mask :=
  match visiting with
  | [] => []
  | (s, e) :: visiting' =>
      let e' := if e - s =? 1 then last_mask_end else e in
      (s, e') :: spec_merge_rev visiting' e'
  end.

Definition spec_merge (ranges : list mask) : list mask :=
  match last ranges with
  | None => []
  | Some final => reverse (spec_merge_rev (reverse ranges) final.2)
  end.

(** ** Closed forms used in the proofs *)

Definition head_end (d : Z) (l : list mask) : Z :=
  match l with [] => d | m :: _ => m.2 end.

(** The effect of the reverse loop on a prefix [masks] of the list, the
    already visited [suffix] following it. *)
Fixpoint merge_onto (d : Z) (masks suffix : list mask) : list mask :=
  match masks with
  | [] => suffix
  | m :: masks' =>
      let rest := merge_onto d masks' suffix in
      (m.1, if m.1 =? m.2 - 1 then head_end d rest else m.2) :: rest
  end.

(** The ranges returned for vision tokens at [ps] in [N] tokens. *)
Fixpoint merged (N : Z) (ps : list Z) : list mask :=
  match ps with
  | [] => []
  | p :: ps' =>
      let rest := merged N ps' in
      (p, match ps' with
          | [] => N
          | q :: _ => if p =? q - 1 then head_end N rest else q
          end) :: rest
  end.

(** ** The rest of the sample encoder *)

(** A Python [str], as its list of characters. *)
Abbreviation str := (list Ascii.ascii).

(** What the encoder can raise: the [ValueError]s of
    [apply_prompt_template] and of [torch.tensor], and what indexing and the
    other tensor operations raise. *)
Inductive error : Type :=
| ValueError
| Builtin (e : exn).

(** The outcome of a call that may raise. *)
Inductive outcome (A : Type) : Type :=
| Done (a : A)
| Throw (e : error).
Global Arguments Done {A} a.
Global Arguments Throw {A} e.

Definition outcome_ret : MRet outcome := λ A a, Done a.
Definition outcome_bind : MBind outcome := λ A B f m,
  match m with Done a => f a | Throw e => Throw e end.
Global Existing Instance outcome_ret.
Global Existing Instance outcome_bind.

(** A built-in operation inside the encoder. *)
Definition lift {A} (r : result A) : outcome A :=
  match r with Ok a => Done a | Raise e => Throw (Builtin e) end.

(** [re.split('(' + re.escape(sep) + ')', s)]: the pieces of [s] between
    the leftmost non-overlapping occurrences of the literal [sep], each
    followed by the occurrence itself (the capture group), then the rest.
    [skip] characters of [s] still belong to the occurrence just found and
    [chunk] is the piece read so far.  An empty [sep] matches before every
    character and at the end. *)
Fixpoint split_from (sep s : str) (skip : nat) (chunk : str) : list str :=
  match s with
  | [] =>
      match sep with
      | [] => [chunk; []; []]
      | _ :: _ => [chunk]
      end
  | c :: s' =>
      match skip with
      | S k => split_from sep s' k chunk
      | O =>
          if bool_decide (sep `prefix_of` s) then
            chunk :: sep ::
              split_from sep s' (length sep - 1)
                (match sep with [] => [c] | _ :: _ => [] end)
          else split_from sep s' 0 (chunk ++ [c])
      end
  end.

Definition re_split (sep s : str) : list str := split_from sep s 0 [].

(** [torch.tensor(ids, dtype=torch.long)] for a list of Python [int]s: an
    [int] that does not fit a signed 64-bit integer raises [ValueError]. *)
Definition torch_tensor_long (ids : list Z) : outcome (list Z) :=
  if forallb is_int64 ids then Done ids else Throw ValueError.

(** [tokens[:-1]] and [labels[1:]] on a 1-D tensor. *)
Definition slice_to_last {A} (l : list A) : list A := take (length l - 1) l.
Definition slice_from_1 {A} (l : list A) : list A := drop 1 l.

(** Truth value of an [Optional[str]]: [None] and the empty string are
    false. *)
Definition truthy (o : option str) : bool :=
  match o with
  | Some (_ :: _) => true
  | _ => false
  end.

Section sample_encoder.

(** Python values the encoder only passes along: sample keys, images,
    float tensors. *)
Variable obj : Type.

(** [input_text.context] and [input_text.answers]: a [str], a [list] of
    [str], or a value of another type. *)
Inductive text_field : Type :=
| TextStr (s : str)
| TextList (l : list str)
| TextOther (o : obj).

(** The fields of a [VQASample] the encoder reads. *)
Record vqa_sample : Type := VQASample {
  vqa_key : obj;
  vqa_image : obj;
  vqa_context : text_field;
  vqa_answers : text_field
}.

(** A content entry [{'type': 'text', 'text': text}]. *)
Inductive content_part : Type := TextPart (text : str).

(** A chat message [{'role': role, 'content': content}]. *)
Record message : Type := Message { role : str; content : list content_part }.

(** The fields of [conversation_template_config] the encoder reads. *)
Record template_config : Type := TemplateConfig {
  chat_template : option str;
  system : option str;
  roles : list str
}.

(** [self.image_token] *)
Record image_token_t : Type := ImageToken { token_str : str; token_id : Z }.

(** The dict returned by the image processor, at the four keys [encode]
    reads: what it holds under the key, if it has the key.  Each entry is
    indexed with [[0]]. *)
Record image_dict : Type := ImageDict {
  pixel_values : option (list obj);
  dict_aspect_ratio_ids : option (list obj);
  dict_aspect_ratio_mask : option (list obj);
  dict_num_tiles : option (list obj)
}.

(** The fields of the output sample that [encode] assigns. *)
Record llama_image_text_sample : Type := LlamaImageTextSample {
  sample_key : obj;
  images : obj;
  aspect_ratio_ids : obj;
  aspect_ratio_mask : obj;
  num_tiles : obj;
  tokens : list Z;
  labels : list Z;
  loss_mask : obj;
  vision_mask : tensor
}.

(** [self]: the configuration and the collaborators the encoder calls,
    which are no code of this file.  The tokenizer's [chat_template]
    attribute, which [apply_prompt_template] assigns, is threaded through
    the calls as a state. *)
Record encoder : Type := Encoder {
  image_token : image_token_t;
  conversation_template_config : template_config;
  (** [self.tokenizer(chunk, add_special_tokens=False).input_ids] *)
  tokenizer_input_ids : str → list Z;
  (** [self.tokenizer.apply_chat_template(messages, tokenize=False,
      add_generation_prompt=False)], under the current chat template *)
  tokenizer_apply_chat_template : option str → list message → str;
  (** [self.compute_labels], [self.compute_loss_mask] (inherited) *)
  compute_labels : list Z → vqa_sample → list Z;
  compute_loss_mask : list Z → obj;
  (** [self.image_processor.preprocess(image, return_tensors='pt',
      do_rescale=False)] *)
  image_processor_preprocess : obj → image_dict
}.

(** Lines 34-36. *)
Definition process_image (self : encoder) (image : obj) : image_dict :=
  image_processor_preprocess self image.

Definition text_message (r text : str) : message :=
  Message r [TextPart text].

(** Lines 56-68: the loop over [range(min_length)]. *)
Fixpoint append_turns (cfg : template_config) (context answers : list str)
    (indices : list Z) (messages : list message) : result (list message) :=
  match indices with
  | [] => Ok messages
  | i :: indices' =>
      r ← list_getitem (roles cfg) 0;
      c ← list_getitem context i;
      let messages := messages ++ [text_message r c] in
      r ← list_getitem (roles cfg) 1;
      a ← list_getitem answers i;
      append_turns cfg context answers indices' (messages ++ [text_message r a])
  end.

(** Lines 47-86: the messages handed to the chat template. *)
Definition build_messages (cfg : template_config) (input_text : vqa_sample)
  : outcome (list message) :=
  let messages :=
    if truthy (system cfg)
    then [text_message (String.list_ascii_of_string "system") (default [] (system cfg))]
    else [] in
  match vqa_context input_text, vqa_answers input_text with
  | TextList context, TextList answers =>
      let min_length :=
        Z.min (Z.of_nat (length context)) (Z.of_nat (length answers)) in
      lift (append_turns cfg context answers (range min_length) messages)
  | TextStr context, TextStr answers =>
      lift (r ← list_getitem (roles cfg) 0;
            let messages := messages ++ [text_message r context] in
            r ← list_getitem (roles cfg) 1;
            Ok (messages ++ [text_message r answers]))
  | _, _ => Throw ValueError
  end.

(** Lines 38-90.  The second component is the tokenizer's chat template
    after the call, also when the call raises. *)
Definition apply_prompt_template (self : encoder) (tokenizer_chat_template : option str)
    (input_text : vqa_sample) : outcome str * option str :=
  let cfg := conversation_template_config self in
  let run (template : option str) :=
    (messages ← build_messages cfg input_text;
     Done (tokenizer_apply_chat_template self template messages), template) in
  if truthy (chat_template cfg) then run (chat_template cfg)
  else match tokenizer_chat_template with
       | None => (Throw ValueError, None)
       | Some _ => run tokenizer_chat_template
       end.

(** Lines 97-101: the loop over the chunks. *)
Fixpoint tokenize_chunks (self : encoder) (chunks : list str) (tokenized_chunks : list Z)
  : list Z :=
  match chunks with
  | [] => tokenized_chunks
  | chunk :: chunks' =>
      if bool_decide (chunk = token_str (image_token self)) then
        tokenize_chunks self chunks' (tokenized_chunks ++ [token_id (image_token self)])
      else if (0 <? length chunk)%nat then
        tokenize_chunks self chunks' (tokenized_chunks ++ tokenizer_input_ids self chunk)
      else tokenize_chunks self chunks' tokenized_chunks
  end.

(** Lines 93-101: the list [tokenized_chunks]. *)
Definition tokenize_ids (self : encoder) (prompt : str) : list Z :=
  let chunks := re_split (token_str (image_token self)) prompt in
  tokenize_chunks self chunks [].

(** Lines 92-103: the 1-D [torch.long] tensor of token ids. *)
Definition tokenize (self : encoder) (prompt : str) : outcome (list Z) :=
  torch_tensor_long (tokenize_ids self prompt).

(** Lines 144-167.  The fields of [output_sample] are all assigned, so the
    sample passed in does not show in the result. *)
Definition encode (self : encoder) (tokenizer_chat_template : option str)
    (input_sample : vqa_sample) : outcome llama_image_text_sample * option str :=
  let '(prompt, template) :=
    apply_prompt_template self tokenizer_chat_template input_sample in
  (conversation_prompt ← prompt;
   tokens ← tokenize self conversation_prompt;
   let labels := compute_labels self tokens input_sample in
   let tokens := slice_to_last tokens in
   let labels := slice_from_1 labels in
   let loss_mask := compute_loss_mask self labels in
   vision_mask ← lift (create_vision_mask_tensor tokens (token_id (image_token self)));
   let processed_image_dict := process_image self (vqa_image input_sample) in
   images ← lift (entry ← dict_getitem (pixel_values processed_image_dict);
                  list_getitem entry 0);
   aspect_ratio_ids ←
     lift (entry ← dict_getitem (dict_aspect_ratio_ids processed_image_dict);
           list_getitem entry 0);
   aspect_ratio_mask ←
     lift (entry ← dict_getitem (dict_aspect_ratio_mask processed_image_dict);
           list_getitem entry 0);
   num_tiles ← lift (entry ← dict_getitem (dict_num_tiles processed_image_dict);
                     list_getitem entry 0);
   Done (LlamaImageTextSample (vqa_key input_sample) images aspect_ratio_ids
           aspect_ratio_mask num_tiles tokens labels loss_mask vision_mask),
   template).

End sample_encoder.

Global Arguments TextStr {obj} s.
Global Arguments TextList {obj} l.
Global Arguments TextOther {obj} o.
Global Arguments VQASample {obj} _ _ _ _.
Global Arguments vqa_key {obj} _.
Global Arguments vqa_image {obj} _.
Global Arguments vqa_context {obj} _.
Global Arguments vqa_answers {obj} _.
Global Arguments ImageDict {obj} _ _ _ _.
Global Arguments pixel_values {obj} _.
Global Arguments dict_aspect_ratio_ids {obj} _.
Global Arguments dict_aspect_ratio_mask {obj} _.
Global Arguments dict_num_tiles {obj} _.
Global Arguments LlamaImageTextSample {obj} _ _ _ _ _ _ _ _ _.
Global Arguments sample_key {obj} _.
Global Arguments images {obj} _.
Global Arguments aspect_ratio_ids {obj} _.
Global Arguments aspect_ratio_mask {obj} _.
Global Arguments num_tiles {obj} _.
Global Arguments tokens {obj} _.
Global Arguments labels {obj} _.
Global Arguments loss_mask {obj} _.
Global Arguments vision_mask {obj} _.
Global Arguments Encoder {obj} _ _ _ _ _ _ _.
Global Arguments image_token {obj} _.
Global Arguments conversation_template_config {obj} _.
Global Arguments tokenizer_input_ids {obj} _ _.
Global Arguments tokenizer_apply_chat_template {obj} _ _ _.
Global Arguments compute_labels {obj} _ _ _.
Global Arguments compute_loss_mask {obj} _ _.
Global Arguments image_processor_preprocess {obj} _ _.
Global Arguments process_image {obj} _ _.
Global Arguments build_messages {obj} _ _.
Global Arguments apply_prompt_template {obj} _ _ _.
Global Arguments tokenize_chunks {obj} _ _ _.
Global Arguments tokenize_ids {obj} _ _.
Global Arguments tokenize {obj} _ _.
Global Arguments encode {obj} _ _ _.

(** The ids of a piece of text between image tokens: none for the empty
    piece, the tokenizer's for any other. *)
Definition text_ids {obj} (self : encoder obj) (text : str) : list Z :=
  match text with
  | [] => []
  | _ :: _ => tokenizer_input_ids self text
  end.

(** An encoder to run the examples on: the image token of Llama 3.2, a
    tokenizer that gives one id per character, a template that writes each
    message as its role, a colon and its texts, labels that copy the tokens,
    and an image processor that returns one entry per field. *)
Definition example_encoder : encoder unit :=
  Encoder
    (ImageToken (String.list_ascii_of_string "<|image|>") 128256)
    (TemplateConfig None (Some (String.list_ascii_of_string "Be brief."))
       [String.list_ascii_of_string "user"; String.list_ascii_of_string "assistant"])
    (λ chunk, (λ c, Z.of_nat (Ascii.nat_of_ascii c)) <$> chunk)
    (λ _ messages,
       messages ≫= λ m,
         role m ++ String.list_ascii_of_string ":" ++
         (content m ≫= λ part, match part with TextPart text => text end))
    (λ tokens _, tokens)
    (λ _, tt)
    (λ _, ImageDict (Some [tt]) (Some [tt]) (Some [tt]) (Some [tt])).

(** A sample for the examples: one image, one question, one answer. *)
Definition example_sample : vqa_sample unit :=
  VQASample tt tt
    (TextStr (String.list_ascii_of_string "<|image|>What is it?"))
    (TextStr (String.list_ascii_of_string "A cat")).

(** The same encoder with a chat template in its configuration. *)
Definition example_templated_encoder : encoder unit :=
  Encoder
    (image_token example_encoder)
    (TemplateConfig (Some (String.list_ascii_of_string "{{ messages }}"))
       (system (conversation_template_config example_encoder))
       (roles (conversation_template_config example_encoder)))
    (tokenizer_input_ids example_encoder)
    (tokenizer_apply_chat_template example_encoder)
    (compute_labels example_encoder)
    (compute_loss_mask example_encoder)
    (image_processor_preprocess example_encoder).

(** A sample with three questions and two answers. *)
Definition example_questions : list str :=
  [String.list_ascii_of_string "q1"; String.list_ascii_of_string "q2";
   String.list_ascii_of_string "q3"].
Definition example_answers : list str :=
  [String.list_ascii_of_string "a1"; String.list_ascii_of_string "a2"].
Definition example_dialogue : vqa_sample unit :=
  VQASample tt tt (TextList example_questions) (TextList example_answers).

(** A sample whose prompt ends with the image token string. *)
Definition example_trailing_sample : vqa_sample unit :=
  VQASample tt tt
    (TextStr (String.list_ascii_of_string "Draw it"))
    (TextStr (String.list_ascii_of_string "<|image|>")).

(** The example encoder with another image token id. *)
Definition example_encoder_with_id (id : Z) : encoder unit :=
  Encoder
    (ImageToken (token_str (image_token example_encoder)) id)
    (conversation_template_config example_encoder)
    (tokenizer_input_ids example_encoder)
    (tokenizer_apply_chat_template example_encoder)
    (compute_labels example_encoder)
    (compute_loss_mask example_encoder)
    (image_processor_preprocess example_encoder).

(** The example encoder with an image processor whose result has no
    ['num_tiles']. *)
Definition example_encoder_without_num_tiles : encoder unit :=
  Encoder
    (image_token example_encoder)
    (conversation_template_config example_encoder)
    (tokenizer_input_ids example_encoder)
    (tokenizer_apply_chat_template example_encoder)
    (compute_labels example_encoder)
    (compute_loss_mask example_encoder)
    (λ _, ImageDict (Some [tt]) (Some [tt]) (Some [tt]) None).

(** A sample without image token. *)
Definition example_text_sample : vqa_sample unit :=
  VQASample tt tt
    (TextStr (String.list_ascii_of_string "What is it?"))
    (TextStr (String.list_ascii_of_string "A cat")).

(** What [d[key][0]] raises, if anything: [KeyError] when the dict has no
    such key, [IndexError] when the entry is empty. *)
Definition entry_error {A} (entry : option (list A)) : option exn :=
  match entry with
  | None => Some KeyError
  | Some [] => Some IndexError
  | Some (_ :: _) => None
  end.

(** The first of these errors among the four entries of the image
    processor's result, in the order in which [encode] reads them. *)
Definition image_entries_error {obj} (d : image_dict obj) : option exn :=
  match entry_error (pixel_values d) with
  | Some e => Some e
  | None =>
      match entry_error (dict_aspect_ratio_ids d) with
      | Some e => Some e
      | None =>
          match entry_error (dict_aspect_ratio_mask d) with
          | Some e => Some e
          | None => entry_error (dict_num_tiles d)
          end
      end
  end.

(** [context] and [answers] are both lists or both strings. *)
Definition supported {obj} (input_text : vqa_sample obj) : Prop :=
  match vqa_context input_text, vqa_answers input_text with
  | TextList _, TextList _ | TextStr _, TextStr _ => True
  | _, _ => False
  end.

(** The call reads [roles[0]] and [roles[1]]: always for strings, and for
    lists when both are non-empty. *)
Definition reads_roles {obj} (input_text : vqa_sample obj) : Prop :=
  match vqa_context input_text, vqa_answers input_text with
  | TextList context, TextList answers => context ≠ [] ∧ answers ≠ []
  | TextStr _, TextStr _ => True
  | _, _ => False
  end.

(** The chat template the call runs under, if there is one: the
    configuration's when it is set, the tokenizer's otherwise. *)
Definition template_in_force (cfg : template_config) (tokenizer_chat_template : option str)
  : option str :=
  if truthy (chat_template cfg) then chat_template cfg else tokenizer_chat_template.

(** The system message, when the configuration has one. *)
Definition system_messages (cfg : template_config) : list message :=
  if truthy (system cfg)
  then [text_message (String.list_ascii_of_string "system") (default [] (system cfg))]
  else [].

(** The literal [sep] occurs in [s]. *)
Definition occurs_in (sep s : str) : Prop := ∃ a b, s = a ++ sep ++ b.

(** A search for [sep] in [s], to decide [occurs_in] on examples. *)
Fixpoint occurs_b (sep s : str) : bool :=
  bool_decide (sep `prefix_of` s) ||
  match s with
  | [] => false
  | _ :: s' => occurs_b sep s'
  end.

(** The turns the template receives for paired contexts and answers. *)
Definition turns (r0 r1 : str) (context answers : list str) : list message :=
  mjoin (zip_with (λ c a, [text_message r0 c; text_message r1 a]) context answers).

(** ** The scenarios of the specification *)

Example scenario_1 : build [5; 1; 2; 5; 3] 5 = Ok [(0, 3); (3, 5)].
Proof. reflexivity. Qed.

Example scenario_3 : build [1; 2; 3] 9 = Ok [].
Proof. reflexivity. Qed.

Example scenario_4 : build [5] 5 = Ok [(0, 1)].
Proof. reflexivity. Qed.

Example run_of_three :
  build [7; 5; 5; 5; 1; 5; 2; 5] 5 = Ok [(1, 5); (2, 5); (3, 5); (5, 7); (7, 8)].
Proof. reflexivity. Qed.

(** ** The torch operations on the tensors that occur *)

Section tensor_ops.
Implicit Types (zs : list Z) (i : nat) (x : Z).

Lemma getitem_item zs i x :
  zs !! i = Some x →
  getitem (Tensor [length zs] zs) (Z.of_nat i) ≫= item = Ok x.
Proof.
  intros Hi. pose proof (lookup_lt_Some _ _ _ Hi) as Hlt.
  unfold getitem; simpl.
  destruct (Z.ltb_spec (Z.of_nat i) 0) as [?|_]; [lia|].
  destruct (Z.leb_spec 0 (Z.of_nat i)) as [_|?]; [|lia].
  destruct (Z.ltb_spec (Z.of_nat i) (Z.of_nat (length zs))) as [_|?]; [|lia].
  simpl. rewrite Nat2Z.id, Nat.mul_1_r, (drop_S _ _ _ Hi). reflexivity.
Qed.

Lemma getitem_item_last zs x :
  last zs = Some x →
  getitem (Tensor [length zs] zs) (-1) ≫= item = Ok x.
Proof.
  intros Hl. rewrite last_lookup in Hl.
  pose proof (lookup_lt_Some _ _ _ Hl) as Hlt.
  replace (-1) with (Z.of_nat (pred (length zs)) - Z.of_nat (length zs)) by lia.
  unfold getitem; simpl.
  destruct (Z.ltb_spec (Z.of_nat (pred (length zs)) - Z.of_nat (length zs)) 0) as [_|?]; [|lia].
  replace (Z.of_nat (pred (length zs)) - Z.of_nat (length zs) + Z.of_nat (length zs))
    with (Z.of_nat (pred (length zs))) by lia.
  destruct (Z.leb_spec 0 (Z.of_nat (pred (length zs)))) as [_|?]; [|lia].
  destruct (Z.ltb_spec (Z.of_nat (pred (length zs))) (Z.of_nat (length zs))) as [_|?]; [|lia].
  simpl. rewrite Nat2Z.id, Nat.mul_1_r, (drop_S _ _ _ Hl). reflexivity.
Qed.

Lemma rows_tensor_of_rows (masks : list mask) :
  rows (data (tensor_of_rows masks)) = masks.
Proof.
  unfold tensor_of_rows; simpl.
  induction masks as [|[s e] masks IH]; [reflexivity|].
  simpl. f_equal. exact IH.
Qed.

End tensor_ops.

(** ** The locations of the vision tokens *)

Section locations.
Implicit Types (tokens : list Z) (v : Z) (ps : list nat).

Lemma elem_of_nonzero_from (bs : list bool) (i p : nat) :
  p ∈ nonzero_from i bs ↔ ∃ j : nat, p = (i + j)%nat ∧ bs !! j = Some true.
Proof.
  revert i. induction bs as [|b bs IH]; intros i; simpl.
  - split; [intros H; inversion H | intros (j & _ & H); discriminate].
  - assert (p ∈ nonzero_from (S i) bs ↔
            ∃ j : nat, p = (i + S j)%nat ∧ bs !! j = Some true) as IH'.
    { rewrite IH. split; intros (j & -> & H); exists j; split; auto; lia. }
    destruct b.
    + rewrite elem_of_cons, IH'. split.
      * intros [-> | (j & -> & H)]; [exists 0%nat | exists (S j)]; split; auto; lia.
      * intros ([|j] & -> & H); [left; lia | right; eauto].
    + rewrite IH'. split.
      * intros (j & -> & H). exists (S j). auto.
      * intros ([|j] & -> & H); [discriminate | eauto].
Qed.

Lemma nonzero_from_sorted (bs : list bool) (i : nat) :
  StronglySorted lt (nonzero_from i bs).
Proof.
  revert i. induction bs as [|b bs IH]; intros i; simpl; [constructor|].
  destruct b; [|apply IH].
  constructor; [apply IH|].
  apply Forall_forall. intros p Hp.
  apply elem_of_nonzero_from in Hp as (j & -> & _). lia.
Qed.

Lemma eq_scalar_lookup tokens v (i : nat) :
  eq_int64 tokens v !! i = Some true ↔ tokens !! i = Some v.
Proof.
  unfold eq_int64. rewrite list_lookup_fmap.
  destruct (tokens !! i) as [x|]; simpl; [|split; discriminate].
  destruct (Z.eqb_spec x v); split; intros; simplify_eq; auto.
Qed.

(** The positions the code finds are the occurrences. *)
Lemma occurs_at_locations tokens v :
  occurs_at tokens v (nonzero_from 0 (eq_int64 tokens v)).
Proof.
  split; [apply nonzero_from_sorted|].
  intros i. rewrite elem_of_nonzero_from. split.
  - intros (j & -> & H). by apply eq_scalar_lookup.
  - intros H. exists i. split; [done|]. by apply eq_scalar_lookup.
Qed.

Lemma sorted_lt_NoDup ps : StronglySorted lt ps → NoDup ps.
Proof.
  induction 1 as [|p ps _ IH Hall]; constructor; [|done].
  intros Hin. rewrite Forall_forall in Hall. specialize (Hall _ Hin). lia.
Qed.

Lemma occurs_at_unique tokens v ps qs :
  occurs_at tokens v ps → occurs_at tokens v qs → ps = qs.
Proof.
  intros [Hs1 H1] [Hs2 H2].
  apply (StronglySorted_unique_strong lt); [intros; lia|done..|].
  apply NoDup_Permutation; [by apply sorted_lt_NoDup..|].
  intros i. by rewrite H1, H2.
Qed.

Lemma occurs_at_found tokens v ps :
  occurs_at tokens v ps → nonzero_from 0 (eq_int64 tokens v) = ps.
Proof. intros H. eapply occurs_at_unique; [apply occurs_at_locations|done]. Qed.

Lemma occurs_at_lt tokens v ps p :
  occurs_at tokens v ps → p ∈ ps → (p < length tokens)%nat.
Proof. intros [_ H] Hp. apply H in Hp. by eapply lookup_lt_Some. Qed.

Lemma occurs_at_nil tokens v : occurs_at tokens v [] ↔ v ∉ tokens.
Proof.
  split.
  - intros [_ H] Hin. apply list_elem_of_lookup in Hin as [i Hi].
    apply H in Hi. inversion Hi.
  - intros Hnot. split; [constructor|]. intros i. split; [intros H; inversion H|].
    intros Hi. destruct Hnot. by eapply list_elem_of_lookup_2.
Qed.

End locations.

(** ** The ranges before the merge *)

Section pairwise.
Implicit Types (zs : list Z) (N : Z) (acc : list mask).

Lemma pairwise_loop_seq zs (n i : nat) acc :
  (i + n < length zs)%nat →
  pairwise_loop (Tensor [length zs] zs) (Z.of_nat <$> seq i n) acc
  = Ok (acc ++ zip (take n (drop i zs)) (take n (drop (S i) zs))).
Proof.
  revert i acc. induction n as [|n IH]; intros i acc Hlt.
  - simpl. by rewrite app_nil_r.
  - destruct (lookup_lt_is_Some_2 zs i) as [a Ha]; [lia|].
    destruct (lookup_lt_is_Some_2 zs (S i)) as [b Hb]; [lia|].
    cbn [seq fmap list_fmap pairwise_loop].
    rewrite (getitem_item _ _ _ Ha). cbn [mbind result_bind].
    replace (Z.of_nat i + 1) with (Z.of_nat (S i)) by lia.
    rewrite (getitem_item _ _ _ Hb). cbn [mbind result_bind].
    change (list_fmap nat Z Z.of_nat (seq (S i) n)) with (Z.of_nat <$> seq (S i) n).
    rewrite IH by lia.
    rewrite (drop_S _ _ _ Ha), (drop_S _ _ _ Hb). simpl.
    by rewrite <- app_assoc.
Qed.

Lemma zip_tail_snoc zs N x :
  last zs = Some x → zip zs (tail zs) ++ [(x, N)] = pairwise_ranges zs N.
Proof.
  unfold pairwise_ranges.
  induction zs as [|a [|b zs] IH]; intros Hl; [discriminate|..].
  - by simplify_eq/=.
  - rewrite last_cons_cons in Hl. simpl in *. f_equal. by apply IH.
Qed.

Lemma pairwise_ranges_fst zs N : (pairwise_ranges zs N).*1 = zs.
Proof.
  unfold pairwise_ranges. apply fst_zip.
  rewrite length_app. destruct zs; simpl; lia.
Qed.

Lemma pairwise_ranges_nonempty zs N : zs ≠ [] → pairwise_ranges zs N ≠ [].
Proof. intros Hne Hnil. by rewrite <- (pairwise_ranges_fst zs N), Hnil in Hne. Qed.

(** What line 117 leaves for [k] locations: shape [0] for none, a 0-d
    tensor for one, shape [k] otherwise. *)
Lemma squeeze_locations zs :
  squeeze (Tensor [length zs; 1%nat] zs)
  = Tensor (if decide (length zs = 1%nat) then [] else [length zs]) zs.
Proof.
  unfold squeeze; simpl. f_equal.
  rewrite filter_cons, filter_cons, filter_nil.
  repeat case_decide; done.
Qed.

Lemma pairwise_masks_locations zs N :
  zs ≠ [] →
  pairwise_masks (squeeze (Tensor [length zs; 1%nat] zs)) N
  = Ok (pairwise_ranges zs N).
Proof.
  intros Hne. rewrite squeeze_locations. unfold pairwise_masks, numel.
  destruct zs as [|a [|b zs]]; [done|reflexivity|].
  set (l := a :: b :: zs).
  assert (length l = S (S (length zs))) as Hlen by done.
  destruct (last l) as [x|] eqn:Hlast; [|by apply last_None in Hlast].
  case_decide; [lia|]. cbn [shape foldr len].
  rewrite Nat.mul_1_r. destruct (Nat.eqb_spec (length l) 1); [lia|].
  cbn [mbind result_bind].
  unfold range. replace (Z.to_nat (Z.of_nat (length l) - 1)) with (S (length zs)) by lia.
  rewrite pairwise_loop_seq by lia. cbn [mbind result_bind].
  rewrite (getitem_item_last _ _ Hlast). cbn [mbind result_bind].
  f_equal. rewrite app_nil_l, drop_0.
  rewrite <- (zip_tail_snoc _ _ _ Hlast). f_equal.
  change (drop 1 l) with (tail l).
  apply zip_with_take_both'; subst l; cbn [tail length]; lia.
Qed.

End pairwise.

(** ** The reverse loop *)

Section merge.
Implicit Types (masks pre suffix : list mask) (m : mask) (d : Z).

Lemma merge_onto_length d masks suffix :
  length (merge_onto d masks suffix) = (length masks + length suffix)%nat.
Proof. induction masks as [|m masks IH]; simpl; [done|]. by rewrite IH. Qed.

Lemma head_end_default d d' (l : list mask) :
  l ≠ [] → head_end d l = head_end d' l.
Proof. by destruct l. Qed.

Lemma merge_onto_snoc d pre m suffix :
  merge_onto d (pre ++ [m]) suffix
  = let e := if m.1 =? m.2 - 1 then head_end d suffix else m.2 in
    merge_onto e pre ((m.1, e) :: suffix).
Proof.
  induction pre as [|m0 pre IH]; [done|].
  cbn zeta in *. cbn [app merge_onto]. rewrite IH.
  do 2 f_equal. destruct (m0.1 =? m0.2 - 1); [|done]. apply head_end_default.
  intros Hnil. apply (f_equal length) in Hnil.
  rewrite merge_onto_length in Hnil. simpl in Hnil. lia.
Qed.

(** The loop run over the prefix [pre], the [suffix] already visited. *)
Lemma reversed_loop_merge_onto pre suffix d :
  head_end d suffix = d →
  reversed_loop (length pre) (pre ++ suffix) d = merge_onto d pre suffix.
Proof.
  revert suffix d. induction pre as [|m pre IH] using rev_ind; intros suffix d Hd.
  - reflexivity.
  - rewrite length_app, Nat.add_1_r, <- app_assoc. cbn [reversed_loop app].
    rewrite list_lookup_middle by done.
    rewrite insert_app_r_alt, Nat.sub_diag by done. cbn [insert list_insert].
    rewrite merge_onto_snoc, Hd. cbn zeta.
    destruct m as [s e]; cbn [fst snd].
    destruct (s =? e - 1); cbn [fst snd]; by apply IH.
Qed.

Lemma merge_consecutive_merge_onto masks m :
  last masks = Some m →
  merge_consecutive masks = Ok (merge_onto m.2 masks []).
Proof.
  intros Hl. unfold merge_consecutive, list_getitem.
  rewrite last_lookup in Hl. pose proof (lookup_lt_Some _ _ _ Hl) as Hlt.
  destruct (Z.ltb_spec (-1) 0) as [_|?]; [|lia].
  destruct (Z.ltb_spec (-1 + Z.of_nat (length masks)) 0) as [?|_]; [lia|].
  replace (Z.to_nat (-1 + Z.of_nat (length masks))) with (pred (length masks)) by lia.
  rewrite Hl. cbn [mbind result_bind]. f_equal.
  rewrite <- (reversed_loop_merge_onto masks [] m.2) by done.
  by rewrite app_nil_r.
Qed.

Lemma merge_consecutive_nil : merge_consecutive [] = Raise IndexError.
Proof. reflexivity. Qed.

(** On the pairwise ranges the loop computes [merged]. *)
Lemma merge_onto_pairwise (zs : list Z) (N : Z) :
  merge_onto N (pairwise_ranges zs N) [] = merged N zs.
Proof.
  unfold pairwise_ranges.
  induction zs as [|a [|b zs] IH]; [done|..].
  - simpl. by destruct (a =? N - 1).
  - change (zip (a :: b :: zs) (tail (a :: b :: zs) ++ [N]))
      with ((a, b) :: zip (b :: zs) (tail (b :: zs) ++ [N])).
    cbn [merge_onto merged fst snd]. by rewrite IH.
Qed.

Lemma last_pairwise_ranges (zs : list Z) (N x : Z) :
  last zs = Some x → last (pairwise_ranges zs N) = Some (x, N).
Proof. intros Hl. rewrite <- (zip_tail_snoc _ _ _ Hl). apply last_snoc. Qed.

End merge.

(** ** The function in closed form *)

Section closed_form.
Implicit Types (tokens : list Z) (v : Z) (ps : list nat) (m : list bool).

Lemma is_int64_spec (z : Z) : is_int64 z = true ↔ int64 z.
Proof. unfold is_int64, int64. by rewrite andb_true_iff, Z.leb_le, Z.ltb_lt. Qed.

Lemma long_tensor_elem tokens v : long_tensor tokens → v ∈ tokens → int64 v.
Proof. intros H Hin. by apply (proj1 (Forall_forall _ _) H). Qed.

Lemma occurs_at_elem tokens v ps : occurs_at tokens v ps → ps ≠ [] → v ∈ tokens.
Proof.
  destruct ps as [|p ps]; [done|]. intros [_ H] _.
  eapply list_elem_of_lookup_2, H. left.
Qed.

Lemma long_tensor_occurs tokens v ps :
  long_tensor tokens → occurs_at tokens v ps → ps ≠ [] → int64 v.
Proof. intros Hl Hocc Hne. eapply long_tensor_elem, occurs_at_elem; done. Qed.

Lemma sentinel_int64 tokens v ps :
  long_tensor tokens → occurs_at tokens v ps → (ps = [] → int64 v) → int64 v.
Proof.
  intros Hl Hocc Hnil. destruct ps as [|p ps]; [by apply Hnil|].
  by eapply long_tensor_occurs.
Qed.

(** The comparison of line 117 on a vision token id that fits 64 signed
    bits, and on one from [2 ^ 64] on. *)
Lemma eq_scalar_int64 tokens v :
  int64 v → eq_scalar wide_scalar tokens v = Ok (eq_int64 tokens v).
Proof. intros H. unfold eq_scalar. by rewrite (proj2 (is_int64_spec v) H). Qed.

Lemma eq_scalar_overflow tokens v :
  2 ^ 64 ≤ v → eq_scalar wide_scalar tokens v = Raise OverflowError.
Proof.
  intros H. unfold eq_scalar.
  destruct (is_int64 v) eqn:E; [apply is_int64_spec in E; unfold int64 in E; lia|].
  by destruct (Z.leb_spec (2 ^ 64) v); [|lia].
Qed.

Lemma eq_scalar_length tokens v m :
  eq_scalar wide_scalar tokens v = Ok m → length m = length tokens.
Proof.
  unfold eq_scalar, eq_int64. destruct (is_int64 v).
  { intros [= <-]. by rewrite length_fmap. }
  destruct (2 ^ 64 <=? v); [done|].
  destruct (wide_scalar v) as [compare|e]; [|done].
  intros [= <-]. by rewrite length_fmap.
Qed.

Lemma numel_mask m :
  numel (squeeze (nonzero m))
  = (if decide (length (nonzero_from 0 m) = 1%nat) then 1
     else length (nonzero_from 0 m))%nat.
Proof.
  unfold nonzero. cbn zeta.
  rewrite <- (length_fmap Z.of_nat (nonzero_from 0 m)), squeeze_locations.
  unfold numel. case_decide; simpl; lia.
Qed.

Lemma pairwise_masks_mask m (N : Z) :
  nonzero_from 0 m ≠ [] →
  pairwise_masks (squeeze (nonzero m)) N
  = Ok (pairwise_ranges (Z.of_nat <$> nonzero_from 0 m) N).
Proof.
  intros Hne. unfold nonzero. cbn zeta.
  rewrite <- (length_fmap Z.of_nat (nonzero_from 0 m)).
  apply pairwise_masks_locations. by destruct (nonzero_from 0 m).
Qed.

Lemma merge_consecutive_pairwise (zs : list Z) (N : Z) :
  zs ≠ [] → merge_consecutive (pairwise_ranges zs N) = Ok (merged N zs).
Proof.
  intros Hne. destruct (last zs) as [x|] eqn:Hlast; [|by apply last_None in Hlast].
  rewrite (merge_consecutive_merge_onto _ _ (last_pairwise_ranges _ _ _ Hlast)).
  cbn [snd]. by rewrite merge_onto_pairwise.
Qed.

(** The function on the boolean tensor of line 117. *)
Lemma create_vision_mask_tensor_mask tokens v m :
  eq_scalar wide_scalar tokens v = Ok m →
  create_vision_mask_tensor tokens v
  = Ok (tensor_of_rows
          (merged (Z.of_nat (length tokens)) (Z.of_nat <$> nonzero_from 0 m))).
Proof.
  intros Hm. unfold create_vision_mask_tensor, vision_token_locations.
  rewrite Hm. cbn [mbind result_bind]. rewrite numel_mask.
  destruct (nonzero_from 0 m) as [|p ps] eqn:Hps; [reflexivity|].
  set (qs := p :: ps) in *.
  assert (qs ≠ []) as Hne by done.
  destruct (Nat.eqb_spec (if decide (length qs = 1%nat) then 1%nat else length qs) 0)
    as [H0|_].
  { case_decide; simpl in *; lia. }
  rewrite pairwise_masks_mask by (by rewrite Hps). rewrite Hps.
  cbn [mbind result_bind]. rewrite merge_consecutive_pairwise by done. done.
Qed.

Lemma build_mask tokens v m :
  eq_scalar wide_scalar tokens v = Ok m →
  build tokens v
  = Ok (merged (Z.of_nat (length tokens)) (Z.of_nat <$> nonzero_from 0 m)).
Proof.
  intros Hm. unfold build. rewrite (create_vision_mask_tensor_mask _ _ _ Hm).
  cbn [fmap result_fmap]. by rewrite rows_tensor_of_rows.
Qed.

Lemma create_vision_mask_tensor_merged tokens v ps :
  int64 v → occurs_at tokens v ps →
  create_vision_mask_tensor tokens v
  = Ok (tensor_of_rows (merged (Z.of_nat (length tokens)) (Z.of_nat <$> ps))).
Proof.
  intros Hv Hocc.
  rewrite (create_vision_mask_tensor_mask _ _ _ (eq_scalar_int64 _ _ Hv)).
  by rewrite (occurs_at_found _ _ _ Hocc).
Qed.

Theorem build_merged tokens v ps :
  int64 v → occurs_at tokens v ps →
  build tokens v = Ok (merged (Z.of_nat (length tokens)) (Z.of_nat <$> ps)).
Proof.
  intros Hv Hocc. rewrite (build_mask _ _ _ (eq_scalar_int64 _ _ Hv)).
  by rewrite (occurs_at_found _ _ _ Hocc).
Qed.

(** A vision token id from [2 ^ 64] on raises at line 117. *)
Lemma build_overflow tokens v :
  2 ^ 64 ≤ v →
  create_vision_mask_tensor tokens v = Raise OverflowError ∧
  build tokens v = Raise OverflowError.
Proof.
  intros Hv. unfold build, create_vision_mask_tensor, vision_token_locations.
  by rewrite (eq_scalar_overflow _ _ Hv).
Qed.

End closed_form.

(** ** Properties of the returned ranges *)

Section merged_props.
Variable N : Z.
Implicit Types (zs : list Z) (p q x : Z) (m : mask).

Lemma merged_cons2 p q zs :
  merged N (p :: q :: zs)
  = (p, if p =? q - 1 then head_end N (merged N (q :: zs)) else q)
      :: merged N (q :: zs).
Proof. reflexivity. Qed.

Lemma merged_head p zs : merged N (p :: zs) = (p, head_end N (merged N (p :: zs))) :: merged N zs.
Proof. reflexivity. Qed.

Lemma merged_fst zs : (merged N zs).*1 = zs.
Proof.
  induction zs as [|p zs IH]; [done|].
  rewrite merged_head, fmap_cons. cbn [fst]. by rewrite IH.
Qed.

Lemma merged_length zs : length (merged N zs) = length zs.
Proof. by rewrite <- (merged_fst zs) at 2; rewrite length_fmap. Qed.

Lemma merged_last zs x : last zs = Some x → last (merged N zs) = Some (x, N).
Proof.
  induction zs as [|p [|q zs] IH]; intros Hl; [done|by simplify_eq/=|].
  rewrite last_cons_cons in Hl.
  rewrite merged_cons2, (merged_head q zs), last_cons_cons, <- merged_head. auto.
Qed.

Lemma merged_head_bounds p zs :
  StronglySorted Z.lt (p :: zs) → Forall (λ z, z < N) (p :: zs) →
  p < head_end N (merged N (p :: zs)) ≤ N.
Proof.
  revert p. induction zs as [|q zs IH]; intros p Hs Hb.
  - apply Forall_cons in Hb as [? _]. simpl. lia.
  - apply StronglySorted_inv in Hs as [Hs Hp].
    apply Forall_cons in Hp as [Hpq _].
    apply Forall_cons in Hb as [_ Hb].
    specialize (IH q Hs Hb). rewrite merged_cons2. cbn [head_end snd].
    destruct (p =? q - 1); [lia|].
    apply Forall_cons in Hb as [? _]. lia.
Qed.

(** An end is never before the start of the next range. *)
Lemma merged_head_next p q zs :
  StronglySorted Z.lt (p :: q :: zs) → Forall (λ z, z < N) (p :: q :: zs) →
  q ≤ head_end N (merged N (p :: q :: zs)) ≤ head_end N (merged N (q :: zs)).
Proof.
  intros Hs Hb.
  apply StronglySorted_inv in Hs as [Hs _].
  apply Forall_cons in Hb as [_ Hb].
  pose proof (merged_head_bounds q zs Hs Hb).
  rewrite merged_cons2. cbn [head_end snd].
  destruct (p =? q - 1); lia.
Qed.

Lemma merged_bounds zs :
  StronglySorted Z.lt zs → Forall (λ z, 0 ≤ z < N) zs →
  Forall (λ m, 0 ≤ m.1 < m.2 ∧ m.2 ≤ N) (merged N zs).
Proof.
  induction zs as [|p zs IH]; intros Hs Hb; [constructor|].
  assert (Forall (λ z, z < N) (p :: zs)) as Hb'.
  { eapply Forall_impl; [exact Hb|]. simpl. lia. }
  pose proof (merged_head_bounds p zs Hs Hb').
  apply StronglySorted_inv in Hs as [Hs _].
  apply Forall_cons in Hb as [Hp Hb].
  rewrite merged_head. constructor; [cbn [fst snd]; lia|auto].
Qed.

Lemma merged_ends_sorted zs :
  StronglySorted Z.lt zs → Forall (λ z, z < N) zs →
  StronglySorted Z.le (merged N zs).*2.
Proof.
  intros Hs Hb. apply Sorted_StronglySorted; [apply _|].
  induction zs as [|p [|q zs] IH]; [constructor|repeat constructor|].
  pose proof (merged_head_next p q zs Hs Hb) as Hnext.
  rewrite merged_head, fmap_cons. cbn [snd].
  apply StronglySorted_inv in Hs as [Hs _].
  apply Forall_cons in Hb as [_ Hb].
  constructor; [by apply IH|].
  rewrite (merged_head q zs), fmap_cons. constructor. cbn [snd]. lia.
Qed.

Lemma merged_no_adjacent zs :
  StronglySorted Z.lt zs → (∀ p, p ∈ zs → p + 1 ∉ zs) →
  merged N zs = pairwise_ranges zs N.
Proof.
  unfold pairwise_ranges.
  induction zs as [|p [|q zs] IH]; intros Hs Hadj; [done..|].
  rewrite merged_cons2.
  destruct (Z.eqb_spec p (q - 1)) as [->|_].
  { exfalso. apply (Hadj (q - 1)); [left|]. replace (q - 1 + 1) with q by lia.
    right; left. }
  apply StronglySorted_inv in Hs as [Hs _].
  rewrite IH; [done|done|].
  intros r Hr Hr'. apply (Hadj r); by right.
Qed.

Lemma merged_covers p zs :
  StronglySorted Z.lt (p :: zs) → Forall (λ z, z < N) (p :: zs) →
  covers (merged N (p :: zs)) p N.
Proof.
  revert p. induction zs as [|q zs IH]; intros p Hs Hb x.
  - apply Forall_cons in Hb as [? _]. simpl. split.
    + intros (m & Hm & Hx). apply list_elem_of_singleton in Hm as ->. done.
    + intros Hx. exists (p, N). split; [left|done].
  - pose proof (merged_head_bounds p _ Hs Hb) as Hhead.
    pose proof (merged_head_next p q zs Hs Hb) as Hnext.
    rewrite merged_head.
    apply StronglySorted_inv in Hs as [Hs Hp].
    apply Forall_cons in Hp as [Hpq _].
    apply Forall_cons in Hb as [_ Hb].
    specialize (IH q Hs Hb x).
    set (e := head_end N (merged N (p :: q :: zs))) in *.
    split.
    + intros (m & Hm & Hx). apply elem_of_cons in Hm as [->|Hm].
      * unfold in_range in Hx; cbn [fst snd] in Hx. lia.
      * assert (q ≤ x < N) by (apply IH; eauto). lia.
    + intros Hx. destruct (Z.lt_ge_cases x q) as [Hlt|Hge].
      * exists (p, e). split; [left|]. unfold in_range; cbn [fst snd]. lia.
      * destruct IH as [_ (m & Hm & Hin)]; [lia|].
        exists m. split; [by right|done].
Qed.

Lemma non_overlapping_cons m (l : list mask) :
  non_overlapping (m :: l) ↔ Forall (disjoint_ranges m) l ∧ non_overlapping l.
Proof.
  split.
  - intros H. split.
    + apply Forall_lookup. intros i b Hi. by apply (H 0%nat (S i)).
    + intros i j a b Hij Hi Hj. by apply (H (S i) (S j)); [lia|..].
  - intros [Hall Hl] [|i] [|j] a b Hij Hi Hj; simplify_eq/=.
    + eapply Forall_lookup_1 in Hall; [|exact Hj]. done.
    + eapply Forall_lookup_1 in Hall; [|exact Hi].
      intros x [? ?]. by apply (Hall x).
    + apply (Hl i j); [lia|done..].
Qed.

(** Two ranges overlap exactly when two vision tokens are adjacent. *)
Lemma merged_non_overlapping zs :
  StronglySorted Z.lt zs → Forall (λ z, z < N) zs →
  non_overlapping (merged N zs) ↔ (∀ p, p ∈ zs → p + 1 ∉ zs).
Proof.
  induction zs as [|p [|q zs] IH]; intros Hs Hb.
  - split; [intros _ p Hp; inversion Hp|]. intros _ i j a b _ Hi. done.
  - split.
    + intros _ r Hr Hr'. apply list_elem_of_singleton in Hr, Hr'. lia.
    + intros _ [|i] [|j] a b Hij Hi Hj; simplify_eq/=.
  - pose proof (merged_head_next p q zs Hs Hb) as Hnext.
    rewrite merged_cons2, non_overlapping_cons.
    rewrite merged_cons2 in Hnext. cbn [head_end snd] in Hnext.
    pose proof Hs as Hs'.
    apply StronglySorted_inv in Hs as [Hs Hp].
    pose proof Hp as Hp'. apply Forall_cons in Hp' as [Hpq _].
    apply Forall_cons in Hb as [_ Hb].
    pose proof (merged_head_bounds q zs Hs Hb) as Hq.
    specialize (IH Hs Hb). rewrite IH. clear IH.
    rewrite Forall_forall in Hp.
    destruct (Z.eqb_spec p (q - 1)) as [Heq|Hne].
    + split.
      * intros [Hall _]. exfalso.
        rewrite merged_head in Hall. apply Forall_cons in Hall as [Hd _].
        apply (Hd q). unfold in_range; cbn [head_end fst snd]. lia.
      * intros Hadj. exfalso. apply (Hadj p); [left|].
        replace (p + 1) with q by lia. right; left.
    + split.
      * intros [_ Hadj] r Hr Hr'.
        apply elem_of_cons in Hr as [->|Hr].
        -- apply elem_of_cons in Hr' as [?|Hr']; [lia|].
           apply elem_of_cons in Hr' as [?|Hr']; [lia|].
           apply StronglySorted_inv in Hs as [_ Hall].
           rewrite Forall_forall in Hall. apply Hall in Hr'. lia.
        -- apply elem_of_cons in Hr' as [?|Hr']; [|by apply (Hadj r)].
           apply Hp in Hr. lia.
      * intros Hadj. split.
        -- apply Forall_forall. intros m Hm x [Hx1 Hx2].
           assert (m.1 ∈ q :: zs) as Hm1.
           { rewrite <- (merged_fst (q :: zs)). by apply list_elem_of_fmap_2. }
           assert (q ≤ m.1).
           { apply elem_of_cons in Hm1 as [->|Hm1]; [lia|].
             apply StronglySorted_inv in Hs as [_ Hall].
             rewrite Forall_forall in Hall. apply Hall in Hm1. lia. }
           unfold in_range in *; cbn [fst snd] in *. lia.
        -- intros r Hr Hr'. apply (Hadj r); by right.
Qed.

(** Each end is the pairwise end or the end of the following range. *)
Lemma merged_widens zs (i : nat) (r m : mask) :
  StronglySorted Z.lt zs → Forall (λ z, z < N) zs →
  pairwise_ranges zs N !! i = Some r → merged N zs !! i = Some m →
  r.2 ≤ m.2 ≤ N ∧
  (m.2 = r.2 ∨ ∃ m', merged N zs !! S i = Some m' ∧ m.2 = m'.2).
Proof.
  unfold pairwise_ranges. revert i r m.
  induction zs as [|p [|q zs] IH]; intros i r m Hs Hb Hr Hm; [done|..].
  - destruct i; simplify_eq/=. split; [lia|by left].
  - pose proof (merged_head_next p q zs Hs Hb) as Hnext.
    pose proof (merged_head_bounds p _ Hs Hb) as Hhead.
    rewrite merged_cons2 in *. cbn [head_end snd] in *.
    destruct i as [|i].
    + set (e := if p =? q - 1 then head_end N (merged N (q :: zs)) else q) in *.
      cbn in Hr. cbn [lookup list_lookup] in Hm.
      injection Hr as <-. injection Hm as <-. cbn [snd]. split; [lia|].
      subst e. destruct (p =? q - 1); [right|by left].
      rewrite (merged_head q zs). eexists; split; [reflexivity|done].
    + apply StronglySorted_inv in Hs as [Hs _].
      apply Forall_cons in Hb as [_ Hb].
      apply (IH i r m Hs Hb); [exact Hr|exact Hm].
Qed.

End merged_props.

(** ** From occurrences to positions *)

Section bridge.
Implicit Types (tokens : list Z) (v : Z) (ps : list nat).

Lemma occurs_at_sorted tokens v ps :
  occurs_at tokens v ps → StronglySorted Z.lt (Z.of_nat <$> ps).
Proof.
  intros [Hs _]. eapply StronglySorted_fmap; [|exact Hs]. intros; lia.
Qed.

Lemma occurs_at_bounds tokens v ps :
  occurs_at tokens v ps →
  Forall (λ z, 0 ≤ z < Z.of_nat (length tokens)) (Z.of_nat <$> ps).
Proof.
  intros Hocc. apply Forall_fmap, Forall_forall. intros p Hp.
  pose proof (occurs_at_lt _ _ _ _ Hocc Hp). simpl. lia.
Qed.

Lemma occurs_at_below tokens v ps :
  occurs_at tokens v ps →
  Forall (λ z, z < Z.of_nat (length tokens)) (Z.of_nat <$> ps).
Proof.
  intros Hocc. eapply Forall_impl; [by eapply occurs_at_bounds|].
  simpl. lia.
Qed.

Lemma no_adjacent_Z ps :
  no_adjacent ps ↔ ∀ p, p ∈ Z.of_nat <$> ps → p + 1 ∉ Z.of_nat <$> ps.
Proof.
  unfold no_adjacent. split.
  - intros H p Hp Hp'. apply list_elem_of_fmap in Hp as (n & -> & Hn).
    replace (Z.of_nat n + 1) with (Z.of_nat (S n)) in Hp' by lia.
    apply list_elem_of_fmap in Hp' as (n' & Heq & Hn').
    apply Nat2Z.inj in Heq as <-. by apply (H n).
  - intros H n Hn Hn'. apply (H (Z.of_nat n)); [by apply list_elem_of_fmap_2|].
    replace (Z.of_nat n + 1) with (Z.of_nat (S n)) by lia.
    by apply list_elem_of_fmap_2.
Qed.

Lemma no_adjacent_occurrences tokens v ps :
  occurs_at tokens v ps → no_adjacent ps ↔ ¬ adjacent_occurrences tokens v.
Proof.
  intros [_ H]. split.
  - intros Hno (i & Hi & HSi). apply (Hno i); by apply H.
  - intros Hadj p Hp HSp. apply Hadj. exists p. split; by apply H.
Qed.

Lemma occurs_at_first tokens v p ps :
  occurs_at tokens v (p :: ps) → first_occurrence tokens v p.
Proof.
  intros [Hs H]. split; [apply H; left|].
  intros i Hi Hv. apply H in Hv.
  apply StronglySorted_inv in Hs as [_ Hall]. rewrite Forall_forall in Hall.
  apply elem_of_cons in Hv as [->|Hv]; [lia|]. apply Hall in Hv. lia.
Qed.

Lemma occurs_at_nonempty tokens v ps :
  occurs_at tokens v ps → v ∈ tokens → ps ≠ [].
Proof. intros Hocc Hin ->. by apply occurs_at_nil in Hocc. Qed.

Lemma spec_merge_rev_snoc (pre suffix : list mask) (d : Z) :
  head_end d suffix = d →
  merge_onto d pre suffix = reverse (spec_merge_rev (reverse pre) d) ++ suffix.
Proof.
  revert suffix d. induction pre as [|[s e] pre IH] using rev_ind; intros suffix d Hd.
  - reflexivity.
  - rewrite merge_onto_snoc, Hd, reverse_snoc. cbn [fst snd spec_merge_rev].
    replace (e - s =? 1) with (s =? e - 1)
      by (destruct (Z.eqb_spec s (e - 1)), (Z.eqb_spec (e - s) 1); lia).
    rewrite IH by done. by rewrite reverse_cons, <- app_assoc.
Qed.

Lemma merge_consecutive_spec_merge (masks : list mask) :
  masks ≠ [] → merge_consecutive masks = Ok (spec_merge masks).
Proof.
  intros Hne. unfold spec_merge.
  destruct (last masks) as [m|] eqn:Hl; [|by apply last_None in Hl].
  rewrite (merge_consecutive_merge_onto _ _ Hl).
  by rewrite spec_merge_rev_snoc, app_nil_r.
Qed.

Lemma merge_onto_fst d (masks suffix : list mask) :
  (merge_onto d masks suffix).*1 = masks.*1 ++ suffix.*1.
Proof.
  induction masks as [|m masks IH]; [done|].
  cbn [merge_onto]. rewrite !fmap_cons. cbn [fst]. by rewrite IH.
Qed.

(** The stages of the function when a vision token is present. *)
Lemma build_stages tokens v ps :
  int64 v → occurs_at tokens v ps → ps ≠ [] →
  let N := Z.of_nat (length tokens) in
  let locations := squeeze (nonzero (eq_int64 tokens v)) in
  vision_token_locations tokens v = Ok locations ∧
  pairwise_masks locations N = Ok (pairwise_ranges (Z.of_nat <$> ps) N) ∧
  merge_consecutive (pairwise_ranges (Z.of_nat <$> ps) N)
  = Ok (merged N (Z.of_nat <$> ps)).
Proof.
  intros Hv Hocc Hne N locations. split; [|split].
  - unfold vision_token_locations. by rewrite (eq_scalar_int64 _ _ Hv).
  - subst locations. rewrite pairwise_masks_mask; rewrite (occurs_at_found _ _ _ Hocc); done.
  - apply merge_consecutive_pairwise. by destruct ps.
Qed.

End bridge.

(** ** The properties of the specification *)

Section claims.
Implicit Types (tokens : list Z) (v : Z) (ps : list nat) (p : nat).

Lemma build_raise tokens v (e : exn) :
  eq_scalar wide_scalar tokens v = Raise e → build tokens v = Raise e.
Proof.
  intros H. unfold build, create_vision_mask_tensor, vision_token_locations.
  by rewrite H.
Qed.

(** The positions found in a boolean tensor are increasing and within it. *)
Lemma nonzero_sorted_bounds (m : list bool) :
  StronglySorted Z.lt (Z.of_nat <$> nonzero_from 0 m) ∧
  Forall (λ z, 0 ≤ z < Z.of_nat (length m)) (Z.of_nat <$> nonzero_from 0 m).
Proof.
  split.
  - eapply StronglySorted_fmap; [|apply nonzero_from_sorted]. intros; lia.
  - apply Forall_fmap, Forall_forall. intros p Hp.
    apply elem_of_nonzero_from in Hp as (j & -> & Hj).
    apply lookup_lt_Some in Hj. simpl. lia.
Qed.

(** C6, as the code has it: a token sequence with no occurrence of the
    vision token id, the empty sequence included, gives the empty mask (the
    function returns the [0 x 2] tensor, which has no ranges) when the vision
    token id fits a signed 64-bit integer. *)
Theorem no_vision_token_empty_mask :
  (∀ tokens v, int64 v → v ∉ tokens →
     create_vision_mask_tensor tokens v = Ok empty_0_2 ∧ build tokens v = Ok []) ∧
  (∀ v, int64 v → build [] v = Ok []).
Proof.
  assert (∀ tokens v, int64 v → v ∉ tokens →
     create_vision_mask_tensor tokens v = Ok empty_0_2 ∧ build tokens v = Ok [])
    as Hgen.
  { intros tokens v Hv Hnot. apply occurs_at_nil in Hnot. split.
    - exact (create_vision_mask_tensor_merged _ _ _ Hv Hnot).
    - exact (build_merged _ _ _ Hv Hnot). }
  split; [exact Hgen|]. intros v Hv. apply Hgen; [done|].
  intros Hin. inversion Hin.
Qed.

(** C4: with exactly one occurrence of the vision token id, at position
    [p] of [N] tokens ([p = N - 1] included), the result is the single
    range [(p, N)]. *)
Theorem single_occurrence tokens v p :
  long_tensor tokens →
  occurs_at tokens v [p] →
  build tokens v = Ok [(Z.of_nat p, Z.of_nat (length tokens))].
Proof.
  intros Hl Hocc.
  by rewrite (build_merged _ _ _ (long_tensor_occurs _ _ _ Hl Hocc ltac:(done)) Hocc).
Qed.

(** C5: when no two of the occurrences [p_0 < ... < p_{k-1}] are adjacent,
    the result is exactly the ranges [(p_i, p_{i+1})] followed by
    [(p_{k-1}, N)], for every [k], so also for [k >= 2] (without an
    occurrence the vision token id has to fit a signed 64-bit integer, as it
    does when it occurs in the tensor); in particular two occurrences [p0],
    [p1] with [p1 > p0 + 1] give [(p0, p1); (p1, N)]. *)
Theorem non_adjacent_occurrences :
  (∀ tokens v ps,
     long_tensor tokens →
     occurs_at tokens v ps → (ps = [] → int64 v) → no_adjacent ps →
     build tokens v
     = Ok (pairwise_ranges (Z.of_nat <$> ps) (Z.of_nat (length tokens)))) ∧
  (∀ tokens v (p0 p1 : nat),
     long_tensor tokens →
     occurs_at tokens v [p0; p1] → (p0 + 1 < p1)%nat →
     build tokens v
     = Ok [(Z.of_nat p0, Z.of_nat p1); (Z.of_nat p1, Z.of_nat (length tokens))]).
Proof.
  assert (∀ tokens v ps,
     long_tensor tokens →
     occurs_at tokens v ps → (ps = [] → int64 v) → no_adjacent ps →
     build tokens v
     = Ok (pairwise_ranges (Z.of_nat <$> ps) (Z.of_nat (length tokens)))) as Hgen.
  { intros tokens v ps Hl Hocc Hnil Hadj.
    rewrite (build_merged _ _ _ (sentinel_int64 _ _ _ Hl Hocc Hnil) Hocc). f_equal.
    apply merged_no_adjacent; [by eapply occurs_at_sorted|by apply no_adjacent_Z]. }
  split; [exact Hgen|].
  intros tokens v p0 p1 Hl Hocc Hlt. rewrite (Hgen _ _ _ Hl Hocc); [done|done|].
  intros p Hp Hp'. set_unfold. lia.
Qed.

(** C1, as the code has it: two adjacent occurrences at [p] and [p + 1]
    give two ranges, [(p, N)] and [(p + 1, N)]; the first is widened to the
    end of the sequence and the second is kept. *)
Theorem adjacent_pair tokens v p :
  long_tensor tokens →
  occurs_at tokens v [p; S p] →
  build tokens v
  = Ok [(Z.of_nat p, Z.of_nat (length tokens));
        (Z.of_nat p + 1, Z.of_nat (length tokens))].
Proof.
  intros Hl Hocc.
  rewrite (build_merged _ _ _ (long_tensor_occurs _ _ _ Hl Hocc ltac:(done)) Hocc).
  cbn [fmap list_fmap merged head_end snd].
  replace (Z.of_nat (S p)) with (Z.of_nat p + 1) by lia.
  destruct (Z.eqb_spec (Z.of_nat p) (Z.of_nat p + 1 - 1)); [done|lia].
Qed.

(** C2: the merge step is the reverse scan of the specification:
    [last_mask_end] starts as the end of the final range, a range with
    [end - start = 1] takes [last_mask_end] as its end, and [last_mask_end]
    becomes the end of the range just visited.  It is the step the function
    runs on its pairwise ranges, and for [5; 5; 1; 2] the result is
    [(0, 4); (1, 4)]: the absorbed range stays. *)
Theorem merge_step_literal :
  (∀ masks : list mask, masks ≠ [] →
     merge_consecutive masks = Ok (spec_merge masks)) ∧
  (∀ tokens v, long_tensor tokens → v ∈ tokens →
     ∃ locations raw,
       vision_token_locations tokens v = Ok locations ∧
       pairwise_masks locations (Z.of_nat (length tokens)) = Ok raw ∧
       build tokens v = Ok (spec_merge raw)) ∧
  build [5; 5; 1; 2] 5 = Ok [(0, 4); (1, 4)].
Proof.
  split; [exact merge_consecutive_spec_merge|]. split; [|reflexivity].
  intros tokens v Hl Hin.
  pose proof (long_tensor_elem _ _ Hl Hin) as Hv.
  pose proof (occurs_at_locations tokens v) as Hocc.
  pose proof (occurs_at_nonempty _ _ _ Hocc Hin) as Hne.
  destruct (build_stages _ _ _ Hv Hocc Hne) as (Hloc & Hraw & Hmerge).
  eexists _, _. split; [exact Hloc|]. split; [exact Hraw|].
  rewrite (build_merged _ _ _ Hv Hocc). rewrite merge_consecutive_spec_merge in Hmerge.
  - by injection Hmerge as ->.
  - apply pairwise_ranges_nonempty.
    by destruct (nonzero_from 0 (eq_int64 tokens v)).
Qed.

(** C7: every returned range [(start, end)] satisfies
    [0 <= start < end <= N], for every token sequence of length [N] and
    every vision token id; a result is returned whenever the vision token id
    fits a signed 64-bit integer. *)
Theorem ranges_within_sequence tokens v :
  (∀ masks,
     build tokens v = Ok masks →
     Forall (λ m, 0 ≤ m.1 < m.2 ∧ m.2 ≤ Z.of_nat (length tokens)) masks) ∧
  (int64 v →
   ∃ masks,
     build tokens v = Ok masks ∧
     Forall (λ m, 0 ≤ m.1 < m.2 ∧ m.2 ≤ Z.of_nat (length tokens)) masks).
Proof.
  assert (∀ masks,
     build tokens v = Ok masks →
     Forall (λ m, 0 ≤ m.1 < m.2 ∧ m.2 ≤ Z.of_nat (length tokens)) masks) as Hin.
  { intros masks Hb.
    destruct (eq_scalar wide_scalar tokens v) as [m|e] eqn:Hm.
    - rewrite (build_mask _ _ _ Hm) in Hb. injection Hb as <-.
      destruct (nonzero_sorted_bounds m) as [Hs Hbd].
      rewrite (eq_scalar_length _ _ _ Hm) in Hbd. by apply merged_bounds.
    - by rewrite (build_raise _ _ _ Hm) in Hb. }
  split; [exact Hin|]. intros Hv.
  pose proof (build_merged _ _ _ Hv (occurs_at_locations tokens v)) as Hb.
  eexists. split; [exact Hb|]. by apply Hin.
Qed.

(** C8, as the code has it: the function is total over the vision token ids
    that fit a signed 64-bit integer: for every sequence of token ids it
    then returns a tensor and raises nothing, the empty mask when the id does
    not occur and for the empty sequence.  For a vision token id from
    [2 ^ 64] on it raises [OverflowError]. *)
Theorem build_total tokens v :
  (int64 v →
   (∃ t, create_vision_mask_tensor tokens v = Ok t ∧
         build tokens v = Ok (rows (data t))) ∧
   (v ∉ tokens → build tokens v = Ok []) ∧
   build [] v = Ok []) ∧
  (2 ^ 64 ≤ v → build tokens v = Raise OverflowError).
Proof.
  split; [|intros Hv; by apply build_overflow].
  intros Hv. split; [|split].
  - pose proof (build_merged _ _ _ Hv (occurs_at_locations tokens v)) as Hb.
    unfold build in *.
    destruct (create_vision_mask_tensor tokens v) as [t|e]; [|discriminate].
    by exists t.
  - intros Hnot. apply occurs_at_nil in Hnot.
    by rewrite (build_merged _ _ _ Hv Hnot).
  - apply (build_merged [] v [] Hv). apply occurs_at_nil. intros Hin. inversion Hin.
Qed.

(** C9: the result has one range per occurrence, the [i]-th range
    starting at the [i]-th occurrence (without an occurrence the vision
    token id has to fit a signed 64-bit integer, as it does when it occurs in
    the tensor); the merge step returns as many ranges as it is given, in the
    same order and with the same starts. *)
Theorem one_range_per_occurrence :
  (∀ tokens v ps,
     long_tensor tokens →
     occurs_at tokens v ps → (ps = [] → int64 v) →
     ∃ masks, build tokens v = Ok masks ∧
              length masks = length ps ∧
              masks.*1 = Z.of_nat <$> ps) ∧
  (∀ raw masks : list mask,
     merge_consecutive raw = Ok masks →
     length masks = length raw ∧ masks.*1 = raw.*1).
Proof.
  split.
  - intros tokens v ps Hl Hocc Hnil. eexists.
    split; [exact (build_merged _ _ _ (sentinel_int64 _ _ _ Hl Hocc Hnil) Hocc)|].
    by rewrite merged_length, length_fmap, merged_fst.
  - intros raw masks Hm.
    destruct (last raw) as [m|] eqn:Hl.
    + rewrite (merge_consecutive_merge_onto _ _ Hl) in Hm. injection Hm as <-.
      by rewrite merge_onto_length, merge_onto_fst, Nat.add_0_r, app_nil_r.
    + apply last_None in Hl as ->. discriminate.
Qed.

(** C10: when the vision token id occurs, the ends of the returned ranges
    are non-decreasing in output order and the last end is [N]; the merge
    step leaves the end of a pairwise range or replaces it by the end of
    the following returned range, never lowering it and never past [N]. *)
Theorem ends_non_decreasing tokens v :
  long_tensor tokens →
  v ∈ tokens →
  let N := Z.of_nat (length tokens) in
  ∃ locations raw masks,
    vision_token_locations tokens v = Ok locations ∧
    pairwise_masks locations N = Ok raw ∧
    merge_consecutive raw = Ok masks ∧
    build tokens v = Ok masks ∧
    StronglySorted Z.le masks.*2 ∧
    snd <$> last masks = Some N ∧
    ∀ (i : nat) (r m : mask),
      raw !! i = Some r → masks !! i = Some m →
      r.2 ≤ m.2 ≤ N ∧
      (m.2 = r.2 ∨ ∃ m', masks !! S i = Some m' ∧ m.2 = m'.2).
Proof.
  intros Hl Hin N.
  pose proof (long_tensor_elem _ _ Hl Hin) as Hv.
  pose proof (occurs_at_locations tokens v) as Hocc.
  pose proof (occurs_at_nonempty _ _ _ Hocc Hin) as Hne.
  pose proof (occurs_at_sorted _ _ _ Hocc) as Hs.
  pose proof (occurs_at_below _ _ _ Hocc) as Hb.
  destruct (build_stages _ _ _ Hv Hocc Hne) as (Hloc & Hraw & Hmerge).
  eexists _, _, _. split; [exact Hloc|]. split; [exact Hraw|]. split; [exact Hmerge|].
  split; [exact (build_merged _ _ _ Hv Hocc)|].
  split; [by apply merged_ends_sorted|]. split.
  - destruct (last (Z.of_nat <$> nonzero_from 0 (eq_int64 tokens v)))
      as [x|] eqn:Hlast.
    + by rewrite (merged_last _ _ _ Hlast).
    + apply last_None in Hlast.
      by destruct (nonzero_from 0 (eq_int64 tokens v)).
  - intros i r m Hr Hm. by eapply merged_widens.
Qed.

(** C3, as the code has it: when the vision token id occurs, the union of
    the returned ranges is exactly the interval from the first occurrence
    to [N], without gaps; the ranges are pairwise non-overlapping exactly
    when no two occurrences are adjacent. *)
Theorem ranges_cover_from_first tokens v :
  long_tensor tokens →
  v ∈ tokens →
  ∃ masks first,
    build tokens v = Ok masks ∧
    first_occurrence tokens v first ∧
    covers masks (Z.of_nat first) (Z.of_nat (length tokens)) ∧
    (non_overlapping masks ↔ ¬ adjacent_occurrences tokens v).
Proof.
  intros Hl Hin.
  pose proof (long_tensor_elem _ _ Hl Hin) as Hv.
  pose proof (occurs_at_locations tokens v) as Hocc.
  pose proof (occurs_at_nonempty _ _ _ Hocc Hin) as Hne.
  pose proof (occurs_at_sorted _ _ _ Hocc) as Hs.
  pose proof (occurs_at_below _ _ _ Hocc) as Hb.
  pose proof (no_adjacent_occurrences _ _ _ Hocc) as Hadj.
  pose proof (build_merged _ _ _ Hv Hocc) as Hbuild.
  destruct (nonzero_from 0 (eq_int64 tokens v)) as [|p ps]; [done|].
  eexists _, p. split; [exact Hbuild|].
  split; [by eapply occurs_at_first|]. split.
  - exact (merged_covers _ _ _ Hs Hb).
  - by rewrite merged_non_overlapping, <- no_adjacent_Z.
Qed.

End claims.

(** ** Splitting the prompt at the image token *)

Lemma split_from_skip (sep s : str) (k : nat) (chunk : str) :
  (k ≤ length s)%nat →
  split_from sep s k chunk = split_from sep (drop k s) 0 chunk.
Proof.
  revert k. induction s as [|c s IH]; intros [|k] Hk; simpl in *;
    [done | lia | done | apply IH; lia].
Qed.

Section split.
Variable sep : str.
Hypothesis sep_nonempty : sep ≠ [].
Implicit Types (s a b chunk : str).

Lemma occurs_in_self : occurs_in sep sep.
Proof. exists [], []. by rewrite app_nil_r. Qed.

Lemma occurs_in_cons c s : occurs_in sep s → occurs_in sep (c :: s).
Proof. intros (a & b & ->). by exists (c :: a), b. Qed.

Lemma prefix_occurs_in s : sep `prefix_of` s → occurs_in sep s.
Proof. intros [b ->]. by exists [], b. Qed.

Lemma split_from_no_match s chunk :
  ¬ occurs_in sep s → split_from sep s 0 chunk = [chunk ++ s].
Proof.
  revert chunk. induction s as [|c s IH]; intros chunk Hno.
  - simpl. destruct sep; [done|]. by rewrite app_nil_r.
  - cbn [split_from]. rewrite bool_decide_eq_false_2.
    + rewrite IH; [by rewrite <- app_assoc|].
      intros Hocc. by apply Hno, occurs_in_cons.
    + intros Hpre. by apply Hno, prefix_occurs_in.
Qed.

Lemma prefix_within (l x y : str) :
  l `prefix_of` x ++ y → (length l ≤ length x)%nat → l `prefix_of` x.
Proof.
  intros [k Hk] Hlen. exists (drop (length l) x).
  rewrite <- (take_drop (length l) x) at 1. f_equal.
  rewrite <- (take_app_le x y) by done. by rewrite Hk, take_app_length.
Qed.

(** A match that starts inside [a] lies within [a] followed by all but the
    last character of [sep]. *)
Lemma prefix_before_separator a b :
  a ≠ [] → sep `prefix_of` a ++ sep ++ b → sep `prefix_of` a ++ slice_to_last sep.
Proof.
  intros Ha Hpre. unfold slice_to_last.
  apply (prefix_within _ _ (drop (length sep - 1) sep ++ b)).
  - by rewrite <- app_assoc, (app_assoc (take _ _)), take_drop.
  - rewrite length_app, length_take. destruct a; [done|]. simpl. lia.
Qed.

Lemma split_from_match a b chunk :
  ¬ occurs_in sep (a ++ slice_to_last sep) →
  split_from sep (a ++ sep ++ b) 0 chunk
  = (chunk ++ a) :: sep :: split_from sep b 0 [].
Proof.
  revert chunk. induction a as [|x a IH]; intros chunk Hno.
  - rewrite app_nil_l, app_nil_r. destruct sep as [|c sep'] eqn:Hsep; [done|].
    cbn [app split_from]. rewrite bool_decide_eq_true_2 by (by exists b).
    do 2 f_equal. replace (length (c :: sep') - 1)%nat with (length sep') by (simpl; lia).
    rewrite split_from_skip by (rewrite length_app; lia).
    by rewrite drop_app_length.
  - cbn [app split_from]. rewrite bool_decide_eq_false_2.
    + rewrite IH; [by rewrite <- app_assoc|].
      intros Hocc. by apply Hno, occurs_in_cons.
    + intros Hpre. apply Hno, prefix_occurs_in.
      by apply (prefix_before_separator (x :: a) b).
Qed.

Lemma re_split_no_match s : ¬ occurs_in sep s → re_split sep s = [s].
Proof. intros H. unfold re_split. by rewrite split_from_no_match. Qed.

Lemma re_split_match a b :
  ¬ occurs_in sep (a ++ slice_to_last sep) →
  re_split sep (a ++ sep ++ b) = a :: sep :: re_split sep b.
Proof. intros H. unfold re_split. by rewrite split_from_match. Qed.

End split.

(** ** Tokenizing the prompt *)

Section tokenize_props.
Context {obj : Type}.
Variable self : encoder obj.
Hypothesis token_str_nonempty : token_str (image_token self) ≠ [].
Implicit Types (prompt a b : str) (chunks : list str).

Lemma tokenize_chunks_acc chunks (acc : list Z) :
  tokenize_chunks self chunks acc = acc ++ tokenize_chunks self chunks [].
Proof.
  revert acc. induction chunks as [|chunk chunks IH]; intros acc.
  - by rewrite app_nil_r.
  - cbn [tokenize_chunks]. case_bool_decide.
    + rewrite IH, (IH ([] ++ _)). by rewrite app_nil_l, app_assoc.
    + destruct (0 <? length chunk)%nat; [|done].
      rewrite IH, (IH ([] ++ _)). by rewrite app_nil_l, app_assoc.
Qed.

Lemma tokenize_chunks_text a chunks :
  a ≠ token_str (image_token self) →
  tokenize_chunks self (a :: chunks) []
  = text_ids self a ++ tokenize_chunks self chunks [].
Proof.
  intros Hne. cbn [tokenize_chunks]. rewrite bool_decide_eq_false_2 by done.
  destruct a as [|c a]; [done|]. cbn [length text_ids]. simpl (0 <? _)%nat.
  by rewrite tokenize_chunks_acc.
Qed.

Lemma tokenize_no_match prompt :
  ¬ occurs_in (token_str (image_token self)) prompt →
  tokenize_ids self prompt = text_ids self prompt.
Proof.
  intros Hno. unfold tokenize_ids. rewrite re_split_no_match by done.
  rewrite tokenize_chunks_text, app_nil_r; [done|].
  intros ->. apply Hno, occurs_in_self.
Qed.

Lemma tokenize_match a b :
  ¬ occurs_in (token_str (image_token self))
      (a ++ slice_to_last (token_str (image_token self))) →
  tokenize_ids self (a ++ token_str (image_token self) ++ b)
  = text_ids self a ++ [token_id (image_token self)] ++ tokenize_ids self b.
Proof.
  intros Hno. unfold tokenize_ids. rewrite re_split_match by done.
  rewrite tokenize_chunks_text.
  - f_equal. cbn [tokenize_chunks]. rewrite bool_decide_eq_true_2 by done.
    by rewrite tokenize_chunks_acc.
  - intros ->. apply Hno. exists [], (slice_to_last (token_str (image_token self))).
    done.
Qed.

(** X1: a prompt in which the image token string does not occur is
    tokenized by one call of the tokenizer on the whole prompt, and the
    empty prompt by none; the ids become the tensor, which raises
    [ValueError] if one of them does not fit a signed 64-bit integer. *)
Theorem tokenize_without_image_token prompt :
  ¬ occurs_in (token_str (image_token self)) prompt →
  tokenize self prompt = torch_tensor_long (text_ids self prompt).
Proof. intros Hno. unfold tokenize. by rewrite tokenize_no_match. Qed.

(** X2: at the first image token string of the prompt, the text before it
    is tokenized on its own (not at all when empty), the string becomes the
    one image token id, and the rest of the prompt is tokenized the same
    way; the tensor is made of these ids, which raises [ValueError] if one of
    them, the image token id included, does not fit a signed 64-bit
    integer. *)
Theorem tokenize_at_image_token a b :
  ¬ occurs_in (token_str (image_token self))
      (a ++ slice_to_last (token_str (image_token self))) →
  tokenize_ids self (a ++ token_str (image_token self) ++ b)
  = text_ids self a ++ [token_id (image_token self)] ++ tokenize_ids self b ∧
  tokenize self (a ++ token_str (image_token self) ++ b)
  = torch_tensor_long
      (text_ids self a ++ [token_id (image_token self)] ++ tokenize_ids self b).
Proof.
  intros Hno. unfold tokenize. by rewrite tokenize_match.
Qed.

End tokenize_props.

(** ** A single vision token *)

Lemma occurs_at_middle (xs ys : list Z) (v : Z) :
  v ∉ xs → v ∉ ys → occurs_at (xs ++ [v] ++ ys) v [length xs].
Proof.
  intros Hxs Hys. split; [repeat constructor|].
  intros i. rewrite list_elem_of_singleton. split.
  - intros ->. by apply (list_lookup_middle xs ys v).
  - intros Hi. change ([v] ++ ys) with (v :: ys) in Hi. destruct (Nat.lt_trichotomy i (length xs)) as [Hlt|[->|Hgt]]; [|done|].
    + rewrite lookup_app_l in Hi by done.
      destruct Hxs. by eapply list_elem_of_lookup_2.
    + rewrite lookup_app_r in Hi by lia.
      destruct (i - length xs)%nat as [|j] eqn:Hj; [lia|].
      destruct Hys. by eapply list_elem_of_lookup_2.
Qed.

Lemma occurs_b_spec (sep s : str) : occurs_b sep s = true ↔ occurs_in sep s.
Proof.
  induction s as [|c s IH]; cbn [occurs_b]; rewrite orb_true_iff, bool_decide_eq_true.
  - split.
    + intros [Hpre|?]; [by apply prefix_occurs_in|done].
    + intros (a & b & H). left. symmetry in H.
      apply app_eq_nil in H as [-> H]. apply app_eq_nil in H as [-> ->]. done.
  - rewrite IH. split.
    + intros [Hpre|Hocc]; [by apply prefix_occurs_in|by apply occurs_in_cons].
    + intros ([|x a] & b & H).
      * left. exists b. by rewrite H.
      * right. injection H as -> ->. by exists a, b.
Qed.

Lemma occurs_b_false (sep s : str) : occurs_b sep s = false → ¬ occurs_in sep s.
Proof. intros Hb Hocc. apply occurs_b_spec in Hocc. congruence. Qed.

(** ** From the prompt to the vision mask *)

Section prompt_to_mask.
Context {obj : Type}.
Variable self : encoder obj.
Hypothesis token_str_nonempty : token_str (image_token self) ≠ [].
Implicit Types (prompt a b : str).

Lemma torch_tensor_long_done (ids : list Z) :
  long_tensor ids → torch_tensor_long ids = Done ids.
Proof.
  intros H. unfold torch_tensor_long.
  assert (forallb is_int64 ids = true) as ->; [|done].
  apply Is_true_true_1, forallb_True.
  eapply Forall_impl; [exact H|]. intros z Hz. by apply Is_true_true_2, is_int64_spec.
Qed.

Lemma torch_tensor_long_inv (ids toks : list Z) :
  torch_tensor_long ids = Done toks → toks = ids ∧ long_tensor ids.
Proof.
  unfold torch_tensor_long. destruct (forallb is_int64 ids) eqn:E; [|done].
  intros [= <-]. split; [done|].
  apply Is_true_true_2, forallb_True in E.
  eapply Forall_impl; [exact E|]. intros z Hz. by apply is_int64_spec, Is_true_true_1.
Qed.

Lemma torch_tensor_long_throw (ids : list Z) (e : error) :
  torch_tensor_long ids = Throw e → e = ValueError.
Proof. unfold torch_tensor_long. destruct (forallb is_int64 ids); by intros [=]. Qed.

Lemma torch_tensor_long_elem (ids : list Z) (z : Z) :
  z ∈ ids → ¬ int64 z → torch_tensor_long ids = Throw ValueError.
Proof.
  intros Hin Hz. unfold torch_tensor_long.
  destruct (forallb is_int64 ids) eqn:E; [|done].
  destruct Hz. apply is_int64_spec.
  rewrite forallb_forall in E. by apply E, list_elem_of_In.
Qed.

(** X3: a prompt with one image token string.  When the image token id
    does not fit a signed 64-bit integer, [tokenize] raises [ValueError].
    When it does, and so do the ids the tokenizer gives for the surrounding
    text, which differ from it, the prompt is tokenized without error and the
    vision mask of its tokens is the single range from the image token, which
    sits after the ids of the text before it, to the end of the tokens. *)
Theorem single_image_prompt_mask a b :
  ¬ occurs_in (token_str (image_token self))
      (a ++ slice_to_last (token_str (image_token self))) →
  ¬ occurs_in (token_str (image_token self)) b →
  (¬ int64 (token_id (image_token self)) →
   tokenize self (a ++ token_str (image_token self) ++ b) = Throw ValueError) ∧
  (int64 (token_id (image_token self)) →
   long_tensor (text_ids self a) → long_tensor (text_ids self b) →
   token_id (image_token self) ∉ text_ids self a →
   token_id (image_token self) ∉ text_ids self b →
   let tokens := text_ids self a ++ [token_id (image_token self)] ++ text_ids self b in
   tokenize self (a ++ token_str (image_token self) ++ b) = Done tokens ∧
   build tokens (token_id (image_token self))
   = Ok [(Z.of_nat (length (text_ids self a)),
          Z.of_nat (length (text_ids self a) + 1 + length (text_ids self b)))]).
Proof.
  intros Ha Hb.
  assert (tokenize self (a ++ token_str (image_token self) ++ b)
          = torch_tensor_long
              (text_ids self a ++ [token_id (image_token self)] ++ text_ids self b))
    as Htok.
  { unfold tokenize.
    by rewrite tokenize_match, (tokenize_no_match _ token_str_nonempty b). }
  split.
  - intros Hid. rewrite Htok.
    apply (torch_tensor_long_elem _ (token_id (image_token self))); [|done].
    apply elem_of_app. right. left.
  - intros Hid Hla Hlb Hida Hidb tokens. split.
    + subst tokens. rewrite Htok.
      apply torch_tensor_long_done. unfold long_tensor.
      rewrite !Forall_app. split; [done|]. split; [|done]. by constructor.
    + subst tokens.
      rewrite (build_merged _ _ _ Hid (occurs_at_middle _ _ _ Hida Hidb)).
      cbn [fmap list_fmap merged]. do 3 f_equal.
      rewrite !length_app. simpl. lia.
Qed.

(** X4: a prompt without the image token string, whose text the tokenizer
    maps to ids that fit a signed 64-bit integer, is tokenized without error.
    The vision mask of its tokens is the empty [0 x 2] tensor when the image
    token id fits a signed 64-bit integer and is none of these ids; it
    raises [OverflowError] when the image token id is [2 ^ 64] or more. *)
Theorem text_only_prompt_mask prompt :
  ¬ occurs_in (token_str (image_token self)) prompt →
  long_tensor (text_ids self prompt) →
  tokenize self prompt = Done (text_ids self prompt) ∧
  (int64 (token_id (image_token self)) →
   token_id (image_token self) ∉ text_ids self prompt →
   create_vision_mask_tensor (text_ids self prompt) (token_id (image_token self))
   = Ok empty_0_2) ∧
  (2 ^ 64 ≤ token_id (image_token self) →
   create_vision_mask_tensor (text_ids self prompt) (token_id (image_token self))
   = Raise OverflowError).
Proof.
  intros Hno Hl. split; [|split].
  - unfold tokenize. rewrite tokenize_no_match by done.
    by apply torch_tensor_long_done.
  - intros Hv Hid. apply occurs_at_nil in Hid.
    exact (create_vision_mask_tensor_merged _ _ _ Hv Hid).
  - intros Hv. by apply build_overflow.
Qed.

End prompt_to_mask.

(** ** The prompt template *)

Section prompt_template.
Context {obj : Type}.
Implicit Types (self : encoder obj) (cfg : template_config)
  (input_text : vqa_sample obj) (context answers : list str)
  (st : option str) (template : str) (messages : list message).

Lemma list_getitem_nat {A} (l : list A) (i : nat) (x : A) :
  l !! i = Some x → list_getitem l (Z.of_nat i) = Ok x.
Proof.
  intros Hi. unfold list_getitem.
  destruct (Z.ltb_spec (Z.of_nat i) 0) as [?|_]; [lia|].
  destruct (Z.ltb_spec (Z.of_nat i) 0) as [?|_]; [lia|].
  by rewrite Nat2Z.id, Hi.
Qed.

Lemma turns_cons r0 r1 c a context answers :
  turns r0 r1 (c :: context) (a :: answers)
  = text_message r0 c :: text_message r1 a :: turns r0 r1 context answers.
Proof. reflexivity. Qed.

Lemma turns_length r0 r1 context answers :
  length (turns r0 r1 context answers)
  = (2 * (length context `min` length answers))%nat.
Proof.
  revert answers. induction context as [|c context IH]; intros [|a answers]; try done.
  rewrite turns_cons. cbn [length]. rewrite IH. lia.
Qed.

Lemma append_turns_seq cfg r0 r1 rest context answers (n i : nat) messages :
  roles cfg = r0 :: r1 :: rest →
  (i + n ≤ length context)%nat → (i + n ≤ length answers)%nat →
  append_turns cfg context answers (Z.of_nat <$> seq i n) messages
  = Ok (messages ++ turns r0 r1 (take n (drop i context)) (take n (drop i answers))).
Proof.
  intros Hroles. revert i messages.
  induction n as [|n IH]; intros i messages Hc Ha.
  - simpl. by rewrite app_nil_r.
  - destruct (lookup_lt_is_Some_2 context i) as [c Hci]; [lia|].
    destruct (lookup_lt_is_Some_2 answers i) as [a Hai]; [lia|].
    cbn [seq fmap list_fmap append_turns]. rewrite Hroles.
    change (list_getitem (r0 :: r1 :: rest) 0) with (Ok r0).
    change (list_getitem (r0 :: r1 :: rest) 1) with (Ok r1).
    rewrite (list_getitem_nat _ _ _ Hci), (list_getitem_nat _ _ _ Hai).
    cbn [mbind result_bind].
    change (list_fmap nat Z Z.of_nat (seq (S i) n)) with (Z.of_nat <$> seq (S i) n).
    rewrite IH by lia.
    rewrite (drop_S _ _ _ Hci), (drop_S _ _ _ Hai). cbn [take].
    rewrite turns_cons, <- !app_assoc. reflexivity.
Qed.

Lemma range_min (a b : nat) :
  range (Z.min (Z.of_nat a) (Z.of_nat b)) = Z.of_nat <$> seq 0 (a `min` b).
Proof. unfold range. do 2 f_equal. lia. Qed.

Lemma build_messages_lists cfg input_text context answers r0 r1 rest :
  vqa_context input_text = TextList context →
  vqa_answers input_text = TextList answers →
  roles cfg = r0 :: r1 :: rest →
  build_messages cfg input_text
  = Done (system_messages cfg ++ turns r0 r1 context answers).
Proof.
  intros Hc Ha Hroles. unfold build_messages. rewrite Hc, Ha, range_min.
  rewrite (append_turns_seq _ _ _ _ _ _ _ _ _ Hroles) by lia.
  rewrite !drop_0. unfold turns at 1. rewrite zip_with_take_both' by lia.
  reflexivity.
Qed.

Lemma build_messages_strings cfg input_text (c a : str) :
  vqa_context input_text = TextStr c →
  vqa_answers input_text = TextStr a →
  build_messages cfg input_text
  = build_messages cfg (VQASample (vqa_key input_text) (vqa_image input_text)
                          (TextList [c]) (TextList [a])).
Proof.
  intros Hc Ha. unfold build_messages. rewrite Hc, Ha. cbn [vqa_context vqa_answers].
  change (range _) with [0]. cbn [append_turns].
  change (list_getitem [c] 0) with (Ok c). change (list_getitem [a] 0) with (Ok a).
  destruct (list_getitem (roles cfg) 0); [|done]. cbn [mbind result_bind].
  by destruct (list_getitem (roles cfg) 1).
Qed.

(** With fewer than two roles, building the messages fails on [roles[0]] or
    [roles[1]] as soon as a turn is appended. *)
Lemma build_messages_short_roles cfg input_text :
  reads_roles input_text → (length (roles cfg) < 2)%nat →
  build_messages cfg input_text = Throw (Builtin IndexError).
Proof.
  unfold reads_roles, build_messages. intros Hreads Hlen.
  destruct (vqa_context input_text) as [c|context|?],
           (vqa_answers input_text) as [a|answers|?]; try done.
  - destruct (roles cfg) as [|r0 [|r1 rest]]; [done|done|simpl in Hlen; lia].
  - destruct Hreads as [Hc Ha].
    destruct context as [|c context]; [done|]. destruct answers as [|a answers]; [done|].
    rewrite range_min. cbn [length Nat.min seq fmap list_fmap append_turns].
    destruct (roles cfg) as [|r0 [|r1 rest]]; [done|done|simpl in Hlen; lia].
Qed.

(** Without a turn to append, the roles are not read. *)
Lemma build_messages_no_turn cfg input_text context answers :
  vqa_context input_text = TextList context →
  vqa_answers input_text = TextList answers →
  context = [] ∨ answers = [] →
  build_messages cfg input_text = Done (system_messages cfg).
Proof.
  intros Hc Ha Hnil. unfold build_messages. rewrite Hc, Ha, range_min.
  replace (length context `min` length answers)%nat with 0%nat; [done|].
  destruct Hnil as [-> | ->]; simpl; lia.
Qed.

Lemma build_messages_unsupported cfg input_text :
  ¬ supported input_text → build_messages cfg input_text = Throw ValueError.
Proof.
  unfold supported, build_messages.
  by destruct (vqa_context input_text), (vqa_answers input_text).
Qed.

(** The three ways building the messages can end. *)
Lemma build_messages_cases cfg input_text :
  (¬ supported input_text ∧ build_messages cfg input_text = Throw ValueError) ∨
  (supported input_text ∧ reads_roles input_text ∧ (length (roles cfg) < 2)%nat ∧
     build_messages cfg input_text = Throw (Builtin IndexError)) ∨
  (supported input_text ∧
     ¬ (reads_roles input_text ∧ (length (roles cfg) < 2)%nat) ∧
     ∃ messages, build_messages cfg input_text = Done messages).
Proof.
  assert (¬ supported input_text ∨
          (supported input_text ∧ reads_roles input_text) ∨
          (supported input_text ∧ ¬ reads_roles input_text ∧
             ∃ context answers,
               vqa_context input_text = TextList context ∧
               vqa_answers input_text = TextList answers ∧
               (context = [] ∨ answers = []))) as [Hno|[[Hsup Hreads]|(Hsup & Hnr & Hnil)]].
  { unfold supported, reads_roles.
    destruct (vqa_context input_text) as [c|[|c context]|?],
             (vqa_answers input_text) as [a|[|a answers]|?];
      try (left; tauto); try (right; left; done); right; right;
      (split; [done|]); (split; [tauto|]); eauto 6. }
  - left. split; [done|]. by apply build_messages_unsupported.
  - destruct (roles cfg) as [|r0 [|r1 rest]] eqn:Hroles.
    1,2: right; left; split; [done|]; split; [done|];
      (split; [simpl; lia|]);
      apply build_messages_short_roles; [done|rewrite Hroles; simpl; lia].
    right; right. split; [done|]. split; [simpl; lia|].
    unfold supported, reads_roles in *.
    destruct (vqa_context input_text) as [c|context|?] eqn:Hc,
             (vqa_answers input_text) as [a|answers|?] eqn:Ha; try done.
    + rewrite (build_messages_strings _ _ _ _ Hc Ha).
      eexists. by eapply build_messages_lists.
    + eexists. by eapply build_messages_lists.
  - destruct Hnil as (context & answers & Hc & Ha & Hnil).
    right; right. split; [done|]. split; [tauto|].
    eexists. by eapply build_messages_no_turn.
Qed.

(** Building the messages raises [ValueError] for unsupported types only,
    and [IndexError] for missing roles only. *)
Lemma build_messages_outcome cfg input_text :
  (build_messages cfg input_text = Throw ValueError ↔ ¬ supported input_text) ∧
  (build_messages cfg input_text = Throw (Builtin IndexError) ↔
     reads_roles input_text ∧ (length (roles cfg) < 2)%nat) ∧
  (∀ e, build_messages cfg input_text = Throw e →
        e = ValueError ∨ e = Builtin IndexError).
Proof.
  destruct (build_messages_cases cfg input_text)
    as [[Hno ->]|[(Hsup & Hreads & Hlen & ->)|(Hsup & Hok & ms & ->)]].
  - split; [done|]. split.
    + split; [done|]. intros [Hreads _]. destruct Hno.
      unfold reads_roles, supported in *.
      by destruct (vqa_context input_text), (vqa_answers input_text).
    + intros e [= <-]. by left.
  - split; [split; [done|tauto]|]. split; [done|]. intros e [= <-]. by right.
  - split; [split; [done|tauto]|]. split; [|done]. split; [done|tauto].
Qed.

Lemma apply_prompt_template_run self st input_text template :
  template_in_force (conversation_template_config self) st = Some template →
  apply_prompt_template self st input_text
  = (messages ← build_messages (conversation_template_config self) input_text;
     Done (tokenizer_apply_chat_template self (Some template) messages),
     Some template).
Proof.
  unfold template_in_force, apply_prompt_template. cbn zeta.
  destruct (truthy (chat_template (conversation_template_config self)));
    intros H; [by rewrite H|]. by subst st.
Qed.

Lemma apply_prompt_template_none self st input_text :
  template_in_force (conversation_template_config self) st = None →
  apply_prompt_template self st input_text = (Throw ValueError, None).
Proof.
  unfold template_in_force, apply_prompt_template. cbn zeta.
  destruct (truthy (chat_template (conversation_template_config self))) eqn:Ht;
    intros H; [|by subst st].
  rewrite H in Ht. done.
Qed.

Lemma apply_prompt_template_state self st input_text :
  (apply_prompt_template self st input_text).2
  = template_in_force (conversation_template_config self) st.
Proof.
  destruct (template_in_force (conversation_template_config self) st) as [t|] eqn:Ht.
  - by rewrite (apply_prompt_template_run _ _ _ _ Ht).
  - by rewrite (apply_prompt_template_none _ _ _ Ht).
Qed.

(** X5: [apply_prompt_template] raises [ValueError] exactly when there is
    no chat template (the configuration has none and the tokenizer's is
    [None]) or when context and answers are not both lists or both
    strings. *)
Theorem apply_prompt_template_value_error self st input_text :
  (apply_prompt_template self st input_text).1 = Throw ValueError ↔
  template_in_force (conversation_template_config self) st = None ∨
  ¬ supported input_text.
Proof.
  destruct (build_messages_outcome (conversation_template_config self) input_text)
    as (Hve & _ & _).
  destruct (template_in_force (conversation_template_config self) st) as [t|] eqn:Ht.
  - rewrite (apply_prompt_template_run _ _ _ _ Ht). cbn [fst]. rewrite <- Hve.
    destruct (build_messages _ _) as [ms|e]; cbn [mbind outcome_bind].
    + split; [done|]. by intros [|].
    + split; [intros [= ->]; by right|]. by intros [|[= ->]].
  - rewrite (apply_prompt_template_none _ _ _ Ht). split; [intros H; left; reflexivity|done].
Qed.

(** X6: with a chat template in force, [apply_prompt_template] raises
    [IndexError] exactly when it reads the roles (for two strings, or two
    non-empty lists) and the configuration has fewer than two; it raises
    nothing but [ValueError] and [IndexError]. *)
Theorem apply_prompt_template_index_error self st input_text :
  ((apply_prompt_template self st input_text).1 = Throw (Builtin IndexError) ↔
   template_in_force (conversation_template_config self) st ≠ None ∧
   reads_roles input_text ∧
   (length (roles (conversation_template_config self)) < 2)%nat) ∧
  (∀ e, (apply_prompt_template self st input_text).1 = Throw e →
        e = ValueError ∨ e = Builtin IndexError).
Proof.
  destruct (build_messages_outcome (conversation_template_config self) input_text)
    as (_ & Hie & Hother).
  destruct (template_in_force (conversation_template_config self) st) as [t|] eqn:Ht.
  - rewrite (apply_prompt_template_run _ _ _ _ Ht). cbn [fst]. rewrite <- Hie.
    destruct (build_messages _ _) as [ms|e]; cbn [mbind outcome_bind].
    + split; [|done]. split; [done|]. by intros [_ ?].
    + split; [|intros e' [= <-]; by apply Hother].
      split; [intros [= ->]; by split|]. by intros [_ [= ->]].
  - rewrite (apply_prompt_template_none _ _ _ Ht). cbn [fst]. split.
    + split; [done|]. by intros [? _].
    + intros e [= <-]. by left.
Qed.

(** X7: for a list of contexts and a list of answers, with a chat template
    in force and at least two roles, the prompt is the chat template applied
    to the system message, if the configuration has one, followed by the
    turns [roles[0]: context[i]], [roles[1]: answers[i]] for the positions
    that both lists have: the longer list is cut to the shorter one.  The
    tokenizer is left with the template in force. *)
Theorem apply_prompt_template_lists self st input_text context answers r0 r1 rest template :
  vqa_context input_text = TextList context →
  vqa_answers input_text = TextList answers →
  roles (conversation_template_config self) = r0 :: r1 :: rest →
  template_in_force (conversation_template_config self) st = Some template →
  apply_prompt_template self st input_text
  = (Done (tokenizer_apply_chat_template self (Some template)
             (system_messages (conversation_template_config self)
              ++ turns r0 r1 context answers)),
     Some template) ∧
  length (turns r0 r1 context answers)
  = (2 * (length context `min` length answers))%nat.
Proof.
  intros Hc Ha Hroles Ht. split; [|apply turns_length].
  rewrite (apply_prompt_template_run _ _ _ _ Ht).
  by rewrite (build_messages_lists _ _ _ _ _ _ _ Hc Ha Hroles).
Qed.

(** X8: a context and an answer given as two strings are treated exactly as
    the one-element lists holding them, for every configuration and
    tokenizer state, errors included. *)
Theorem apply_prompt_template_strings self st key image (c a : str) :
  apply_prompt_template self st (VQASample key image (TextStr c) (TextStr a))
  = apply_prompt_template self st (VQASample key image (TextList [c]) (TextList [a])).
Proof.
  destruct (template_in_force (conversation_template_config self) st) as [t|] eqn:Ht.
  - rewrite !(apply_prompt_template_run _ _ _ _ Ht).
    by rewrite (build_messages_strings _ _ c a).
  - by rewrite !(apply_prompt_template_none _ _ _ Ht).
Qed.

(** X9: after the call the tokenizer's chat template is the configuration's
    when that is set and its previous one otherwise, also when the call
    raises: unsupported input under a configured template raises
    [ValueError] with the tokenizer's template already replaced. *)
Theorem apply_prompt_template_installs_template self st input_text :
  (apply_prompt_template self st input_text).2
  = template_in_force (conversation_template_config self) st ∧
  (truthy (chat_template (conversation_template_config self)) = true →
   ¬ supported input_text →
   apply_prompt_template self st input_text
   = (Throw ValueError, chat_template (conversation_template_config self))).
Proof.
  split; [apply apply_prompt_template_state|].
  intros Ht Hno.
  destruct (chat_template (conversation_template_config self)) as [t|] eqn:Hcfg;
    [|done].
  rewrite (apply_prompt_template_run self st input_text t).
  - by rewrite (build_messages_unsupported _ _ Hno).
  - unfold template_in_force. by rewrite Hcfg, Ht.
Qed.

End prompt_template.

(** ** Encoding a sample *)

Section encode_props.
Context {obj : Type}.
Implicit Types (self : encoder obj) (st : option str)
  (input_sample : vqa_sample obj) (out : llama_image_text_sample obj)
  (prompt : str) (toks : list Z).

Lemma encode_throw self st input_sample e st' :
  apply_prompt_template self st input_sample = (Throw e, st') →
  encode self st input_sample = (Throw e, st').
Proof. intros H. unfold encode. by rewrite H. Qed.

Lemma encode_tokenize_throw self st input_sample prompt st' e :
  apply_prompt_template self st input_sample = (Done prompt, st') →
  tokenize self prompt = Throw e →
  encode self st input_sample = (Throw e, st').
Proof. intros H Ht. unfold encode. rewrite H. cbn [mbind outcome_bind]. by rewrite Ht. Qed.

Lemma encode_mask_raise self st input_sample prompt st' toks (e : exn) :
  apply_prompt_template self st input_sample = (Done prompt, st') →
  tokenize self prompt = Done toks →
  eq_scalar wide_scalar (slice_to_last toks) (token_id (image_token self)) = Raise e →
  encode self st input_sample = (Throw (Builtin e), st').
Proof.
  intros H Ht He. unfold encode. rewrite H. cbn [mbind outcome_bind].
  rewrite Ht. cbn [mbind outcome_bind].
  unfold create_vision_mask_tensor, vision_token_locations. by rewrite He.
Qed.

(** [encode] after the tokens and the boolean tensor [m] of line 117 are
    there: the vision mask is computed without error and only the image
    entries can still fail. *)
Lemma encode_after_tokenize self st input_sample prompt st' toks (m : list bool) :
  apply_prompt_template self st input_sample = (Done prompt, st') →
  tokenize self prompt = Done toks →
  eq_scalar wide_scalar (slice_to_last toks) (token_id (image_token self)) = Ok m →
  let labs := slice_from_1 (compute_labels self toks input_sample) in
  let d := process_image self (vqa_image input_sample) in
  encode self st input_sample
  = (images ← lift (entry ← dict_getitem (pixel_values d); list_getitem entry 0);
     aspect_ratio_ids ←
       lift (entry ← dict_getitem (dict_aspect_ratio_ids d); list_getitem entry 0);
     aspect_ratio_mask ←
       lift (entry ← dict_getitem (dict_aspect_ratio_mask d); list_getitem entry 0);
     num_tiles ← lift (entry ← dict_getitem (dict_num_tiles d); list_getitem entry 0);
     Done (LlamaImageTextSample (vqa_key input_sample) images aspect_ratio_ids
             aspect_ratio_mask num_tiles (slice_to_last toks) labs
             (compute_loss_mask self labs)
             (tensor_of_rows
                (merged (Z.of_nat (length (slice_to_last toks)))
                   (Z.of_nat <$> nonzero_from 0 m)))),
     st').
Proof.
  intros H Ht Hm. cbn zeta. unfold encode. rewrite H. cbn [mbind outcome_bind].
  rewrite Ht. cbn [mbind outcome_bind].
  by rewrite (create_vision_mask_tensor_mask _ _ _ Hm).
Qed.

Lemma encode_inv self st input_sample out st' :
  encode self st input_sample = (Done out, st') →
  ∃ prompt toks (m : list bool),
    apply_prompt_template self st input_sample = (Done prompt, st') ∧
    tokenize self prompt = Done toks ∧
    eq_scalar wide_scalar (tokens out) (token_id (image_token self)) = Ok m ∧
    tokens out = slice_to_last toks ∧
    labels out = slice_from_1 (compute_labels self toks input_sample) ∧
    vision_mask out
    = tensor_of_rows
        (merged (Z.of_nat (length (tokens out))) (Z.of_nat <$> nonzero_from 0 m)).
Proof.
  intros Henc.
  destruct (apply_prompt_template self st input_sample) as [[prompt|e] template] eqn:Happ.
  2:{ rewrite (encode_throw _ _ _ _ _ Happ) in Henc. by injection Henc. }
  destruct (tokenize self prompt) as [toks|e] eqn:Htok.
  2:{ rewrite (encode_tokenize_throw _ _ _ _ _ _ Happ Htok) in Henc. by injection Henc. }
  destruct (eq_scalar wide_scalar (slice_to_last toks) (token_id (image_token self)))
    as [m|e] eqn:Hm.
  2:{ rewrite (encode_mask_raise _ _ _ _ _ _ _ Happ Htok Hm) in Henc. by injection Henc. }
  rewrite (encode_after_tokenize _ _ _ _ _ _ _ Happ Htok Hm) in Henc. cbn zeta in Henc.
  destruct (pixel_values _) as [[|? ?]|]; [by injection Henc| |by injection Henc].
  destruct (dict_aspect_ratio_ids _) as [[|? ?]|]; [by injection Henc| |by injection Henc].
  destruct (dict_aspect_ratio_mask _) as [[|? ?]|]; [by injection Henc| |by injection Henc].
  destruct (dict_num_tiles _) as [[|? ?]|]; [by injection Henc| |by injection Henc].
  injection Henc as <- <-. by exists prompt, toks, m.
Qed.

(** X10: [encode] raises what [apply_prompt_template] raises, and then the
    [ValueError] of [tokenize] when an id of the prompt does not fit a signed
    64-bit integer.  Once the tokens are there, an image token id from
    [2 ^ 64] on makes the vision mask raise [OverflowError]; with an image
    token id that fits a signed 64-bit integer the vision mask never fails,
    and what is left is reading the image processor's result: [encode]
    raises [KeyError] at the first entry it reads that is missing,
    [IndexError] at the first that is empty, and returns a sample when there
    is none. *)
Theorem encode_outcome self st input_sample :
  (∀ e st', apply_prompt_template self st input_sample = (Throw e, st') →
            encode self st input_sample = (Throw e, st')) ∧
  (∀ prompt st',
     apply_prompt_template self st input_sample = (Done prompt, st') →
     (∀ e, tokenize self prompt = Throw e →
           e = ValueError ∧ encode self st input_sample = (Throw ValueError, st')) ∧
     (∀ toks, tokenize self prompt = Done toks →
        (2 ^ 64 ≤ token_id (image_token self) →
         encode self st input_sample = (Throw (Builtin OverflowError), st')) ∧
        (int64 (token_id (image_token self)) →
         (image_entries_error (process_image self (vqa_image input_sample)) = None →
          ∃ out, encode self st input_sample = (Done out, st')) ∧
         (∀ e : exn,
            image_entries_error (process_image self (vqa_image input_sample)) = Some e →
            encode self st input_sample = (Throw (Builtin e), st'))))).
Proof.
  split; [intros e st'; apply encode_throw|].
  intros prompt st' Happ. split.
  { intros e Htok. pose proof (torch_tensor_long_throw _ _ Htok) as ->.
    split; [done|]. by eapply encode_tokenize_throw. }
  intros toks Htok. split.
  { intros Hv. eapply encode_mask_raise; [done..|]. by apply eq_scalar_overflow. }
  intros Hv.
  rewrite (encode_after_tokenize _ _ _ _ _ _ _ Happ Htok (eq_scalar_int64 _ _ Hv)).
  cbn zeta. unfold image_entries_error.
  destruct (pixel_values _) as [[|? ?]|].
  1,3: split; [intros [=]|by intros e [= <-]].
  destruct (dict_aspect_ratio_ids _) as [[|? ?]|].
  1,3: split; [intros [=]|by intros e [= <-]].
  destruct (dict_aspect_ratio_mask _) as [[|? ?]|].
  1,3: split; [intros [=]|by intros e [= <-]].
  destruct (dict_num_tiles _) as [[|? ?]|].
  1,3: split; [intros [=]|by intros e [= <-]].
  split; [intros _; by eexists|intros e [=]].
Qed.

(** X11: in a sample returned by [encode], every range of the vision mask
    lies within the returned tokens, [0 <= start < end <= len(tokens)]; when
    the image token id fits a signed 64-bit integer, the vision mask has one
    range per image token id of the returned tokens, starting at it. *)
Theorem encode_vision_mask_within_tokens self st input_sample out st' :
  encode self st input_sample = (Done out, st') →
  ∃ masks,
    vision_mask out = tensor_of_rows masks ∧
    Forall (λ m, 0 ≤ m.1 < m.2 ∧ m.2 ≤ Z.of_nat (length (tokens out))) masks ∧
    (int64 (token_id (image_token self)) →
     ∃ ps, occurs_at (tokens out) (token_id (image_token self)) ps ∧
           masks.*1 = Z.of_nat <$> ps).
Proof.
  intros Henc.
  destruct (encode_inv _ _ _ _ _ Henc) as (prompt & toks & m & _ & _ & Hm & _ & _ & Hmask).
  eexists. split; [exact Hmask|]. split.
  - destruct (nonzero_sorted_bounds m) as [Hs Hbd].
    rewrite (eq_scalar_length _ _ _ Hm) in Hbd. by apply merged_bounds.
  - intros Hv. rewrite (eq_scalar_int64 _ _ Hv) in Hm. injection Hm as <-.
    eexists. split; [apply occurs_at_locations|apply merged_fst].
Qed.

(** X12: [encode] returns the tokens of the prompt without the last one
    and the labels, computed on all the tokens, without the first one; they
    have the same length when [compute_labels] returns one label per
    token. *)
Theorem encode_shifts_tokens_and_labels self st input_sample out st' :
  encode self st input_sample = (Done out, st') →
  ∃ prompt toks,
    apply_prompt_template self st input_sample = (Done prompt, st') ∧
    tokenize self prompt = Done toks ∧
    tokens out = slice_to_last toks ∧
    labels out = slice_from_1 (compute_labels self toks input_sample) ∧
    (length (compute_labels self toks input_sample) = length toks →
     length (labels out) = length (tokens out)).
Proof.
  intros Henc.
  destruct (encode_inv _ _ _ _ _ Henc) as (prompt & toks & m & Happ & Htok & _ & Ht & Hl & _).
  exists prompt, toks. split; [done|]. split; [done|]. split; [done|]. split; [done|].
  intros Hlen. rewrite Ht, Hl. unfold slice_to_last, slice_from_1.
  rewrite length_take, length_drop. lia.
Qed.

(** X13: the last token of the prompt is cut off before the vision mask
    is computed: when the only image token id of the tokenized prompt is its
    last token, the returned tokens are the ones before it and the vision
    mask is the empty [0 x 2] tensor. *)
Theorem encode_trailing_image_token self st input_sample out st' prompt (xs : list Z) :
  encode self st input_sample = (Done out, st') →
  apply_prompt_template self st input_sample = (Done prompt, st') →
  tokenize self prompt = Done (xs ++ [token_id (image_token self)]) →
  token_id (image_token self) ∉ xs →
  tokens out = xs ∧ vision_mask out = empty_0_2.
Proof.
  intros Henc Happ Htok Hnot.
  destruct (encode_inv _ _ _ _ _ Henc)
    as (prompt' & toks & m & Happ' & Htok' & Hm & Ht & _ & Hmask).
  rewrite Happ in Happ'. injection Happ' as <-.
  rewrite Htok in Htok'. injection Htok' as <-.
  assert (tokens out = xs) as Hxs.
  { rewrite Ht. unfold slice_to_last.
    rewrite length_app. cbn [length]. rewrite Nat.add_sub. apply take_app_length. }
  split; [done|].
  assert (int64 (token_id (image_token self))) as Hv.
  { destruct (torch_tensor_long_inv _ _ Htok) as [Hids Hl]. rewrite <- Hids in Hl.
    eapply long_tensor_elem; [exact Hl|]. apply elem_of_app. right. constructor. }
  rewrite (eq_scalar_int64 _ _ Hv), Hxs in Hm. injection Hm as <-.
  rewrite Hmask, Hxs. apply occurs_at_nil in Hnot.
  by rewrite (occurs_at_found _ _ _ Hnot).
Qed.

End encode_props.

(** ** Runs of adjacent vision tokens *)

Section runs.
Variable N : Z.
Implicit Types (zs pre post : list Z).

Lemma merged_app pre zs :
  ∃ front, merged N (pre ++ zs) = front ++ merged N zs ∧ length front = length pre.
Proof.
  induction pre as [|x pre (front & Hfront & Hlen)]; [by exists []|].
  exists ((x, head_end N (merged N (x :: pre ++ zs))) :: front).
  split; [|by cbn [length]; rewrite Hlen].
  change ((x :: pre) ++ zs) with (x :: (pre ++ zs)).
  by rewrite merged_head, Hfront.
Qed.

Lemma merged_lookup_app pre zs (t : nat) :
  merged N (pre ++ zs) !! (length pre + t)%nat = merged N zs !! t.
Proof.
  destruct (merged_app pre zs) as (front & -> & <-).
  rewrite lookup_app_r by lia. f_equal. lia.
Qed.

Lemma merged_run (p r : nat) post :
  head post ≠ Some (Z.of_nat (p + S r)) →
  ∀ t : nat, (t ≤ r)%nat →
    merged N ((Z.of_nat <$> seq p (S r)) ++ post) !! t
    = Some (Z.of_nat (p + t), default N (head post)).
Proof.
  revert p. induction r as [|r IH]; intros p Hhead t Ht.
  - assert (t = 0%nat) as -> by lia. rewrite Nat.add_0_r.
    cbn [seq fmap list_fmap app]. destruct post as [|q post]; [done|].
    rewrite merged_cons2. cbn [lookup list_lookup head default].
    destruct (Z.eqb_spec (Z.of_nat p) (q - 1)) as [Heq|_]; [|done].
    destruct Hhead. simpl. f_equal. lia.
  - assert (head post ≠ Some (Z.of_nat (S p + S r))) as Hhead'.
    { intros H. apply Hhead. rewrite H. f_equal. lia. }
    specialize (IH (S p) Hhead').
    change (seq p (S (S r))) with (p :: S p :: seq (S (S p)) r).
    change (seq (S p) (S r)) with (S p :: seq (S (S p)) r) in IH.
    cbn [fmap list_fmap app] in *. rewrite merged_cons2.
    destruct t as [|t].
    + cbn [lookup list_lookup]. rewrite Nat.add_0_r.
      destruct (Z.eqb_spec (Z.of_nat p) (Z.of_nat (S p) - 1)) as [_|?]; [|lia].
      specialize (IH 0%nat ltac:(lia)).
      destruct (merged N _) as [|m ms]; [done|].
      cbn [lookup list_lookup] in IH. injection IH as ->. done.
    + cbn [lookup list_lookup]. rewrite IH by lia. do 3 f_equal. lia.
Qed.

End runs.

(** X14: in a run of adjacent vision tokens at positions
    [p, p + 1, ..., p + r] that the next vision token, if any, does not
    continue, every token of the run gets the range from itself to that next
    vision token, or to the end of the sequence when the run holds the last
    vision token. *)
Theorem run_of_vision_tokens (tokens : list Z) (v : Z) (pre post : list nat) (p r : nat) :
  long_tensor tokens →
  occurs_at tokens v (pre ++ seq p (S r) ++ post) →
  head post ≠ Some (p + S r)%nat →
  ∃ masks,
    build tokens v = Ok masks ∧
    ∀ t : nat, (t ≤ r)%nat →
      masks !! (length pre + t)%nat
      = Some (Z.of_nat (p + t), Z.of_nat (default (length tokens) (head post))).
Proof.
  intros Hlong Hocc Hhead.
  assert (int64 v) as Hv.
  { eapply long_tensor_occurs; [exact Hlong|exact Hocc|]. by destruct pre. }
  eexists. split; [exact (build_merged _ _ _ Hv Hocc)|].
  intros t Ht. rewrite !fmap_app, <- (length_fmap Z.of_nat pre).
  rewrite merged_lookup_app, merged_run; [|by destruct post; naive_solver|done].
  by destruct post.
Qed.

End sample_encoder_py.

(** ** The properties on examples

    The examples take [example_wide_scalar] for the comparison with a
    vision token id outside the signed 64-bit range and below [2 ^ 64]; none
    of them reaches it. *)

Lemma not_elem_of_forallb (x : Z) (l : list Z) :
  forallb (λ y, negb (y =? x)) l = true → x ∉ l.
Proof.
  intros Hall Hin. apply list_elem_of_In in Hin.
  rewrite forallb_forall in Hall. specialize (Hall _ Hin).
  by rewrite Z.eqb_refl in Hall.
Qed.

Lemma long_tensor_forallb (tokens : list Z) :
  forallb is_int64 tokens = true → long_tensor tokens.
Proof.
  intros H. apply Is_true_true_2, forallb_True in H.
  eapply Forall_impl; [exact H|]. intros z Hz. by apply is_int64_spec, Is_true_true_1.
Qed.

Lemma int64_is_int64 (z : Z) : is_int64 z = true → int64 z.
Proof. apply is_int64_spec. Qed.

Lemma example_token_str_nonempty : token_str (image_token example_encoder) ≠ [].
Proof. discriminate. Qed.

Lemma no_vision_token_empty_mask_witness :
  int64 9 ∧ (9 ∉ [1; 2; 3]) ∧
  build example_wide_scalar [1; 2; 3] 9 = Ok [] ∧
  build example_wide_scalar [] 9 = Ok [].
Proof.
  assert (int64 9) as Hv by (apply int64_is_int64; reflexivity).
  assert (9 ∉ [1; 2; 3]) as Hnot by (apply not_elem_of_forallb; reflexivity).
  split; [exact Hv|]. split; [exact Hnot|]. split.
  - exact (proj2 (proj1 (no_vision_token_empty_mask example_wide_scalar)
                    [1; 2; 3] 9 Hv Hnot)).
  - exact (proj2 (no_vision_token_empty_mask example_wide_scalar) 9 Hv).
Defined.

(** C6 as written fails: [2 ^ 64] does not occur in [1; 2; 3], and the
    function raises [OverflowError] at line 117 instead of returning the
    empty mask, whatever the comparison does below [2 ^ 64]. *)
Lemma absent_sentinel_overflow :
  (2 ^ 64 ∉ [1; 2; 3]) ∧
  (∀ wide_scalar,
     create_vision_mask_tensor wide_scalar [1; 2; 3] (2 ^ 64) = Raise OverflowError) ∧
  (∀ wide_scalar, build wide_scalar [1; 2; 3] (2 ^ 64) = Raise OverflowError) ∧
  (∀ wide_scalar, build wide_scalar [1; 2; 3] (2 ^ 64) ≠ Ok []).
Proof.
  split; [apply not_elem_of_forallb; reflexivity|].
  split; [reflexivity|]. split; [reflexivity|]. discriminate.
Qed.

Lemma single_occurrence_witness :
  long_tensor [5] ∧ occurs_at [5] 5 [0%nat] ∧
  build example_wide_scalar [5] 5 = Ok [(0, 1)].
Proof.
  assert (long_tensor [5]) as Hl by (apply long_tensor_forallb; reflexivity).
  split; [exact Hl|]. split; [exact (occurs_at_locations [5] 5)|].
  exact (single_occurrence example_wide_scalar [5] 5 0%nat Hl
           (occurs_at_locations [5] 5)).
Defined.

Lemma non_adjacent_occurrences_witness :
  build example_wide_scalar [5; 1; 5; 2; 3; 5] 5 = Ok [(0, 2); (2, 5); (5, 6)] ∧
  build example_wide_scalar [5; 1; 2; 5; 3] 5 = Ok [(0, 3); (3, 5)].
Proof.
  split.
  - refine (proj1 (non_adjacent_occurrences example_wide_scalar)
              [5; 1; 5; 2; 3; 5] 5 [0; 2; 5]%nat _ (occurs_at_locations _ _) _ _).
    + apply long_tensor_forallb. reflexivity.
    + discriminate.
    + intros p Hp Hp'. set_unfold. lia.
  - refine (proj2 (non_adjacent_occurrences example_wide_scalar)
              [5; 1; 2; 5; 3] 5 0%nat 3%nat _ (occurs_at_locations _ _) _).
    + apply long_tensor_forallb. reflexivity.
    + lia.
Defined.

Lemma adjacent_pair_witness :
  long_tensor [1; 5; 5; 2; 3] ∧
  occurs_at [1; 5; 5; 2; 3] 5 [1; 2]%nat ∧
  build example_wide_scalar [1; 5; 5; 2; 3] 5 = Ok [(1, 5); (2, 5)].
Proof.
  assert (long_tensor [1; 5; 5; 2; 3]) as Hl by (apply long_tensor_forallb; reflexivity).
  split; [exact Hl|]. split; [exact (occurs_at_locations [1; 5; 5; 2; 3] 5)|].
  exact (adjacent_pair example_wide_scalar [1; 5; 5; 2; 3] 5 1%nat Hl
           (occurs_at_locations _ _)).
Defined.

(** C1 as written fails: two adjacent occurrences give two ranges. *)
Lemma adjacent_pair_not_single_range :
  long_tensor [5; 5; 1; 2] ∧
  occurs_at [5; 5; 1; 2] 5 [0; 1]%nat ∧
  (∀ wide_scalar, build wide_scalar [5; 5; 1; 2] 5 = Ok [(0, 4); (1, 4)]) ∧
  (∀ wide_scalar, build wide_scalar [5; 5; 1; 2] 5 ≠ Ok [(0, 4)]).
Proof.
  split; [apply long_tensor_forallb; reflexivity|].
  split; [exact (occurs_at_locations [5; 5; 1; 2] 5)|].
  split; [reflexivity|discriminate].
Qed.

Lemma merge_step_literal_witness :
  merge_consecutive [(0, 1); (1, 4)] = Ok [(0, 4); (1, 4)] ∧
  ∃ locations raw,
    vision_token_locations example_wide_scalar [5; 5; 1; 2] 5 = Ok locations ∧
    pairwise_masks locations 4 = Ok raw ∧
    build example_wide_scalar [5; 5; 1; 2] 5 = Ok (spec_merge raw).
Proof.
  split.
  - apply (proj1 (merge_step_literal example_wide_scalar) [(0, 1); (1, 4)]). discriminate.
  - apply (proj1 (proj2 (merge_step_literal example_wide_scalar)) [5; 5; 1; 2] 5).
    + apply long_tensor_forallb. reflexivity.
    + left.
Defined.

Lemma ranges_within_sequence_witness :
  int64 5 ∧
  ∃ masks,
    build example_wide_scalar [7; 5; 5; 5; 1; 5; 2; 5] 5 = Ok masks ∧
    Forall (λ m, 0 ≤ m.1 < m.2 ∧ m.2 ≤ 8) masks.
Proof.
  assert (int64 5) as Hv by (apply int64_is_int64; reflexivity).
  split; [exact Hv|].
  exact (proj2 (ranges_within_sequence example_wide_scalar [7; 5; 5; 5; 1; 5; 2; 5] 5) Hv).
Defined.

Lemma build_total_witness :
  (∃ t, create_vision_mask_tensor example_wide_scalar [1; 2; 3] 9 = Ok t) ∧
  build example_wide_scalar [1; 2; 3] 9 = Ok [] ∧
  (∃ t, create_vision_mask_tensor example_wide_scalar [7; 5; 5; 5; 1; 5; 2; 5] 5 = Ok t) ∧
  build example_wide_scalar [1; 2; 3] (2 ^ 64) = Raise OverflowError.
Proof.
  assert (int64 9) as H9 by (apply int64_is_int64; reflexivity).
  assert (int64 5) as H5 by (apply int64_is_int64; reflexivity).
  split; [|split; [|split]].
  - destruct (proj1 (proj1 (build_total example_wide_scalar [1; 2; 3] 9) H9))
      as (t & Ht & _).
    by exists t.
  - apply (proj1 (proj2 (proj1 (build_total example_wide_scalar [1; 2; 3] 9) H9))).
    apply not_elem_of_forallb. reflexivity.
  - destruct (proj1 (proj1 (build_total example_wide_scalar
                              [7; 5; 5; 5; 1; 5; 2; 5] 5) H5))
      as (t & Ht & _).
    by exists t.
  - apply (proj2 (build_total example_wide_scalar [1; 2; 3] (2 ^ 64))). lia.
Defined.

(** C8 as written fails: for the vision token id [2 ^ 64] the function
    returns nothing on [1; 2; 3], it raises [OverflowError], whatever the
    comparison does below [2 ^ 64]. *)
Lemma build_not_total :
  (∀ wide_scalar, build wide_scalar [1; 2; 3] (2 ^ 64) = Raise OverflowError) ∧
  (∀ wide_scalar, ¬ ∃ masks, build wide_scalar [1; 2; 3] (2 ^ 64) = Ok masks) ∧
  (∀ wide_scalar,
     ¬ ∃ t, create_vision_mask_tensor wide_scalar [1; 2; 3] (2 ^ 64) = Ok t).
Proof.
  split; [reflexivity|]. split; intros wide_scalar [x Hx]; discriminate.
Qed.

Lemma one_range_per_occurrence_witness :
  (∃ masks, build example_wide_scalar [5; 5; 1; 2] 5 = Ok masks ∧
            length masks = 2%nat ∧ masks.*1 = [0; 1]) ∧
  length [(0, 4); (1, 4)] = 2%nat ∧ [(0, 4); (1, 4)].*1 = [(0, 1); (1, 4)].*1.
Proof.
  split.
  - refine (proj1 (one_range_per_occurrence example_wide_scalar) [5; 5; 1; 2] 5
              [0; 1]%nat _ (occurs_at_locations _ _) _).
    + apply long_tensor_forallb. reflexivity.
    + discriminate.
  - apply (proj2 (one_range_per_occurrence example_wide_scalar)
             [(0, 1); (1, 4)] [(0, 4); (1, 4)]).
    reflexivity.
Defined.

Lemma ends_non_decreasing_witness :
  ∃ locations raw masks,
    vision_token_locations example_wide_scalar [7; 5; 5; 5; 1; 5; 2; 5] 5
    = Ok locations ∧
    pairwise_masks locations 8 = Ok raw ∧
    merge_consecutive raw = Ok masks ∧
    build example_wide_scalar [7; 5; 5; 5; 1; 5; 2; 5] 5 = Ok masks ∧
    StronglySorted Z.le masks.*2 ∧
    snd <$> last masks = Some 8 ∧
    ∀ (i : nat) (r m : mask),
      raw !! i = Some r → masks !! i = Some m →
      r.2 ≤ m.2 ≤ 8 ∧
      (m.2 = r.2 ∨ ∃ m', masks !! S i = Some m' ∧ m.2 = m'.2).
Proof.
  apply (ends_non_decreasing example_wide_scalar [7; 5; 5; 5; 1; 5; 2; 5] 5).
  - apply long_tensor_forallb. reflexivity.
  - right. left.
Defined.

Lemma ranges_cover_from_first_witness :
  ∃ masks first,
    build example_wide_scalar [1; 5; 2; 5; 3] 5 = Ok masks ∧
    first_occurrence [1; 5; 2; 5; 3] 5 first ∧
    covers masks (Z.of_nat first) 5 ∧
    (non_overlapping masks ↔ ¬ adjacent_occurrences [1; 5; 2; 5; 3] 5).
Proof.
  apply (ranges_cover_from_first example_wide_scalar [1; 5; 2; 5; 3] 5).
  - apply long_tensor_forallb. reflexivity.
  - right. left.
Defined.

(** C3 as written fails: the ranges of two adjacent occurrences overlap. *)
Lemma adjacent_ranges_overlap :
  long_tensor [5; 5; 1; 2] ∧ (5 ∈ [5; 5; 1; 2]) ∧
  (∀ wide_scalar, build wide_scalar [5; 5; 1; 2] 5 = Ok [(0, 4); (1, 4)]) ∧
  ¬ non_overlapping [(0, 4); (1, 4)].
Proof.
  split; [apply long_tensor_forallb; reflexivity|].
  split; [left|]. split; [reflexivity|].
  intros H. apply (H 0%nat 1%nat (0, 4) (1, 4) ltac:(lia) eq_refl eq_refl 1).
  unfold in_range; simpl. lia.
Qed.

Lemma run_of_vision_tokens_witness :
  ∃ masks,
    build example_wide_scalar [7; 5; 5; 5; 1; 5; 2; 5] 5 = Ok masks ∧
    ∀ t : nat, (t ≤ 2)%nat → masks !! (0 + t)%nat = Some (Z.of_nat (1 + t), 5).
Proof.
  apply (run_of_vision_tokens example_wide_scalar [7; 5; 5; 5; 1; 5; 2; 5] 5
           [] [5; 7]%nat 1 2).
  - apply long_tensor_forallb. reflexivity.
  - exact (occurs_at_locations [7; 5; 5; 5; 1; 5; 2; 5] 5).
  - discriminate.
Defined.

Lemma tokenize_without_image_token_witness :
  tokenize example_encoder (String.list_ascii_of_string "Hi") = Done [72; 105].
Proof.
  apply (tokenize_without_image_token example_encoder example_token_str_nonempty).
  apply occurs_b_false. reflexivity.
Defined.

Lemma tokenize_at_image_token_witness :
  tokenize_ids example_encoder (String.list_ascii_of_string "Hi<|image|>you")
  = [72; 105; 128256; 121; 111; 117] ∧
  tokenize example_encoder (String.list_ascii_of_string "Hi<|image|>you")
  = Done [72; 105; 128256; 121; 111; 117] ∧
  tokenize (example_encoder_with_id (2 ^ 63))
    (String.list_ascii_of_string "Hi<|image|>you")
  = Throw ValueError.
Proof.
  split; [|split].
  - apply (tokenize_at_image_token example_encoder example_token_str_nonempty
             (String.list_ascii_of_string "Hi") (String.list_ascii_of_string "you")).
    apply occurs_b_false. reflexivity.
  - apply (tokenize_at_image_token example_encoder example_token_str_nonempty
             (String.list_ascii_of_string "Hi") (String.list_ascii_of_string "you")).
    apply occurs_b_false. reflexivity.
  - apply (tokenize_at_image_token (example_encoder_with_id (2 ^ 63))
             example_token_str_nonempty
             (String.list_ascii_of_string "Hi") (String.list_ascii_of_string "you")).
    apply occurs_b_false. reflexivity.
Defined.

Lemma single_image_prompt_mask_witness :
  (tokenize example_encoder (String.list_ascii_of_string "Hi<|image|>you")
   = Done [72; 105; 128256; 121; 111; 117] ∧
   build example_wide_scalar [72; 105; 128256; 121; 111; 117] 128256 = Ok [(2, 6)]) ∧
  tokenize (example_encoder_with_id (2 ^ 63))
    (String.list_ascii_of_string "Hi<|image|>you")
  = Throw ValueError.
Proof.
  split.
  - apply (proj2 (single_image_prompt_mask example_wide_scalar example_encoder
                    example_token_str_nonempty
                    (String.list_ascii_of_string "Hi")
                    (String.list_ascii_of_string "you")
                    ltac:(apply occurs_b_false; reflexivity)
                    ltac:(apply occurs_b_false; reflexivity))).
    + apply int64_is_int64. reflexivity.
    + apply long_tensor_forallb. reflexivity.
    + apply long_tensor_forallb. reflexivity.
    + apply not_elem_of_forallb. reflexivity.
    + apply not_elem_of_forallb. reflexivity.
  - apply (proj1 (single_image_prompt_mask example_wide_scalar
                    (example_encoder_with_id (2 ^ 63))
                    example_token_str_nonempty
                    (String.list_ascii_of_string "Hi")
                    (String.list_ascii_of_string "you")
                    ltac:(apply occurs_b_false; reflexivity)
                    ltac:(apply occurs_b_false; reflexivity))).
    intros H. apply is_int64_spec in H. discriminate.
Defined.

Lemma text_only_prompt_mask_witness :
  tokenize example_encoder (String.list_ascii_of_string "Hi") = Done [72; 105] ∧
  create_vision_mask_tensor example_wide_scalar [72; 105] 128256 = Ok empty_0_2 ∧
  create_vision_mask_tensor example_wide_scalar [72; 105] (2 ^ 64)
  = Raise OverflowError.
Proof.
  pose proof (text_only_prompt_mask example_wide_scalar example_encoder
                example_token_str_nonempty (String.list_ascii_of_string "Hi")
                ltac:(apply occurs_b_false; reflexivity)
                ltac:(apply long_tensor_forallb; reflexivity)) as (Htok & Hmask & _).
  pose proof (text_only_prompt_mask example_wide_scalar
                (example_encoder_with_id (2 ^ 64))
                example_token_str_nonempty (String.list_ascii_of_string "Hi")
                ltac:(apply occurs_b_false; reflexivity)
                ltac:(apply long_tensor_forallb; reflexivity)) as (_ & _ & Hraise).
  split; [exact Htok|]. split.
  - apply Hmask; [apply int64_is_int64; reflexivity|].
    apply not_elem_of_forallb. reflexivity.
  - apply Hraise. simpl. lia.
Defined.

Lemma apply_prompt_template_lists_witness :
  apply_prompt_template example_encoder (Some []) example_dialogue
  = (Done (String.list_ascii_of_string
             "system:Be brief.user:q1assistant:a1user:q2assistant:a2"),
     Some []) ∧
  length (turns (String.list_ascii_of_string "user")
            (String.list_ascii_of_string "assistant")
            example_questions example_answers)
  = 4%nat.
Proof.
  exact (apply_prompt_template_lists example_encoder (Some []) example_dialogue
           example_questions example_answers
           (String.list_ascii_of_string "user")
           (String.list_ascii_of_string "assistant") [] []
           eq_refl eq_refl eq_refl eq_refl).
Defined.

Lemma apply_prompt_template_installs_template_witness :
  apply_prompt_template example_templated_encoder None
    (VQASample tt tt (TextStr (String.list_ascii_of_string "q")) (TextList []))
  = (Throw ValueError, Some (String.list_ascii_of_string "{{ messages }}")).
Proof.
  apply (proj2 (apply_prompt_template_installs_template example_templated_encoder None _)).
  - reflexivity.
  - intros H. exact H.
Defined.

Lemma encode_outcome_witness :
  (∃ out, encode example_wide_scalar example_encoder (Some []) example_sample
          = (Done out, Some [])) ∧
  encode example_wide_scalar example_encoder None example_sample
  = (Throw ValueError, None) ∧
  encode example_wide_scalar (example_encoder_with_id (2 ^ 63)) (Some []) example_sample
  = (Throw ValueError, Some []) ∧
  encode example_wide_scalar (example_encoder_with_id (2 ^ 64)) (Some [])
    example_text_sample
  = (Throw (Builtin OverflowError), Some []) ∧
  encode example_wide_scalar example_encoder_without_num_tiles (Some []) example_sample
  = (Throw (Builtin KeyError), Some []).
Proof.
  split; [|split; [|split; [|split]]].
  - pose proof (proj2 (encode_outcome example_wide_scalar example_encoder (Some [])
                         example_sample) _ _ eq_refl) as [_ H].
    apply (proj1 (proj2 (H _ eq_refl) ltac:(apply int64_is_int64; reflexivity))).
    reflexivity.
  - apply (proj1 (encode_outcome example_wide_scalar example_encoder None example_sample)).
    reflexivity.
  - pose proof (proj2 (encode_outcome example_wide_scalar
                         (example_encoder_with_id (2 ^ 63)) (Some [])
                         example_sample) _ _ eq_refl) as [H _].
    exact (proj2 (H ValueError eq_refl)).
  - pose proof (proj2 (encode_outcome example_wide_scalar
                         (example_encoder_with_id (2 ^ 64)) (Some [])
                         example_text_sample) _ _ eq_refl) as [_ H].
    apply (proj1 (H _ eq_refl)). simpl. lia.
  - pose proof (proj2 (encode_outcome example_wide_scalar
                         example_encoder_without_num_tiles (Some [])
                         example_sample) _ _ eq_refl) as [_ H].
    apply (proj2 (proj2 (H _ eq_refl) ltac:(apply int64_is_int64; reflexivity))).
    reflexivity.
Defined.

Lemma encode_vision_mask_within_tokens_witness :
  ∃ out masks ps,
    encode example_wide_scalar example_encoder (Some []) example_sample
    = (Done out, Some []) ∧
    vision_mask out = tensor_of_rows masks ∧
    Forall (λ m, 0 ≤ m.1 < m.2 ∧ m.2 ≤ Z.of_nat (length (tokens out))) masks ∧
    occurs_at (tokens out) 128256 ps ∧
    masks.*1 = Z.of_nat <$> ps.
Proof.
  eexists.
  destruct (encode_vision_mask_within_tokens example_wide_scalar example_encoder
              (Some []) example_sample _ _ eq_refl) as (masks & Hmask & Hbounds & H).
  destruct (H ltac:(apply int64_is_int64; reflexivity)) as (ps & Hocc & Hfst).
  exists masks, ps. split; [reflexivity|]. split; [exact Hmask|].
  split; [exact Hbounds|]. split; [exact Hocc|exact Hfst].
Defined.

Lemma encode_shifts_tokens_and_labels_witness :
  ∃ out prompt toks,
    encode example_wide_scalar example_encoder (Some []) example_sample
    = (Done out, Some []) ∧
    apply_prompt_template example_encoder (Some []) example_sample
    = (Done prompt, Some []) ∧
    tokenize example_encoder prompt = Done toks ∧
    tokens out = slice_to_last toks ∧
    length (labels out) = length (tokens out).
Proof.
  eexists.
  destruct (encode_shifts_tokens_and_labels example_wide_scalar example_encoder
              (Some []) example_sample _ _ eq_refl)
    as (prompt & toks & Happ & Htok & Ht & _ & Hlen).
  exists prompt, toks. split; [reflexivity|]. split; [exact Happ|].
  split; [exact Htok|]. split; [exact Ht|].
  apply Hlen. reflexivity.
Defined.

Lemma encode_trailing_image_token_witness :
  ∃ out,
    encode example_wide_scalar example_encoder (Some []) example_trailing_sample
    = (Done out, Some []) ∧
    tokens out
    = tokenizer_input_ids example_encoder
        (String.list_ascii_of_string "system:Be brief.user:Draw itassistant:") ∧
    vision_mask out = empty_0_2.
Proof.
  eexists. split; [reflexivity|].
  apply (encode_trailing_image_token example_wide_scalar example_encoder (Some [])
           example_trailing_sample _ (Some []) _ _ eq_refl eq_refl eq_refl).
  apply not_elem_of_forallb. reflexivity.
Defined.
